(** * Evaluation metrics, hashing encoder and baseline classifiers

    A shallow embedding of the hand-written Python of the workshop notebooks:

    - [hashing_frequency] (notebook 01, vectors and visualization),
    - [OverfittingSpamModel], [SensitiveSpamModel], [model_accuracy],
      [f1_score] and [fbeta_score] (notebook 02, evaluating models).

    Conventions of the embedding.

    - A Python [str] is a [string]: a sequence of code points below 256.
    - A data frame with the columns [label] and [text] is a list of [row]s.
    - A Python exception is the [Raise] case of [result].
    - Floating-point numbers are kept abstract in the class [Float64], so
      each function is written once.  Theorems are proved for the instance
      [ideal] (exact rationals extended with the IEEE special values: rounding
      is abstracted, the special values are not); the instance [binary64]
      (the kernel's IEEE-754 binary64 numbers) evaluates the same functions
      bit for bit on concrete inputs.
    - Methods of a class take the object's state and return the new state
      next to their result. *)

From Stdlib Require Import ZArith QArith Qcanon String Ascii List Lia.
From Stdlib Require Import Floats.PrimFloat Uint63.
From Stdlib Require Import Floats.SpecFloat Floats.FloatOps Floats.FloatAxioms.
From stdpp Require Import gmap strings list.
From stdpp Require Import sorting.

#[local] Set Warnings "-clear-no-such-hyp,-abstract-large-number".

Local Open Scope string_scope.
Local Open Scope nat_scope.
Local Open Scope list_scope.

(** ** Exceptions *)

Inductive exn : Set :=
  | ZeroDivisionError
  | IndexError.

Inductive result (A : Type) : Type :=
  | Ok (a : A)
  | Raise (e : exn).
Arguments Ok {A} a.
Arguments Raise {A} e.

#[global] Instance result_ret : MRet result := λ A a, Ok a.
#[global] Instance result_bind : MBind result := λ A B f m,
  match m with
  | Ok a => f a
  | Raise e => Raise e
  end.

(** ** Floating-point numbers *)

(** The operations the notebooks use on [float] and [numpy.float64].
    [fdiv] is the IEEE-754 division, which is total ([x / 0] is an infinity
    or NaN); [feqb] is the comparison [==]. *)
Class Float64 (F : Type) := {
  of_int : Z → F;
  fadd : F → F → F;
  fmul : F → F → F;
  fdiv : F → F → F;
  feqb : F → F → bool
}.

(** [x / y] on Python floats: a zero divisor raises. *)
Definition py_truediv {F : Type} {FO : Float64 F} (x y : F) : result F :=
  if feqb y (of_int 0) then Raise ZeroDivisionError else Ok (fdiv x y).

(** [x / y] on [numpy.float64] scalars: a zero divisor only gives a warning,
    and the value is the IEEE one. *)
Definition np_truediv {F : Type} {FO : Float64 F} (x y : F) : F := fdiv x y.

(** [a % n] on Python integers: the result has the sign of [n], as
    [Z.modulo] has. *)
Definition py_mod (a n : Z) : result Z :=
  if (n =? 0)%Z then Raise ZeroDivisionError else Ok (a mod n)%Z.

(** *** Exact arithmetic with the IEEE special values *)

Inductive ideal : Type :=
  | Fin (q : Qc)
  | PInf
  | NInf
  | NaN.

Definition inf_of_sign (negative : bool) : ideal :=
  if negative then NInf else PInf.

Definition Qc_neg (q : Qc) : bool := bool_decide (q < 0)%Qc.
Definition Qc_zero (q : Qc) : bool := bool_decide (q = 0%Qc).

Definition ideal_add (x y : ideal) : ideal :=
  match x, y with
  | NaN, _ | _, NaN => NaN
  | PInf, NInf | NInf, PInf => NaN
  | PInf, _ | _, PInf => PInf
  | NInf, _ | _, NInf => NInf
  | Fin a, Fin b => Fin (a + b)
  end.

Definition ideal_mul (x y : ideal) : ideal :=
  match x, y with
  | NaN, _ | _, NaN => NaN
  | Fin a, Fin b => Fin (a * b)
  | Fin a, PInf | PInf, Fin a =>
      if Qc_zero a then NaN else inf_of_sign (Qc_neg a)
  | Fin a, NInf | NInf, Fin a =>
      if Qc_zero a then NaN else inf_of_sign (negb (Qc_neg a))
  | PInf, PInf | NInf, NInf => PInf
  | PInf, NInf | NInf, PInf => NInf
  end.

(** A zero divisor is the positive zero: the divisors of the notebooks are
    sums of non-negative numbers. *)
Definition ideal_div (x y : ideal) : ideal :=
  match x, y with
  | NaN, _ | _, NaN => NaN
  | Fin a, Fin b =>
      if Qc_zero b then
        (if Qc_zero a then NaN else inf_of_sign (Qc_neg a))
      else Fin (a / b)
  | Fin _, (PInf | NInf) => Fin 0
  | PInf, Fin b => inf_of_sign (Qc_neg b)
  | NInf, Fin b => inf_of_sign (negb (Qc_neg b))
  | (PInf | NInf), (PInf | NInf) => NaN
  end.

Definition ideal_eqb (x y : ideal) : bool :=
  match x, y with
  | Fin a, Fin b => bool_decide (a = b)
  | PInf, PInf | NInf, NInf => true
  | _, _ => false
  end.

#[global] Instance ideal_float : Float64 ideal := {
  of_int := λ z, Fin (Qc_of_Z z);
  fadd := ideal_add;
  fmul := ideal_mul;
  fdiv := ideal_div;
  feqb := ideal_eqb
}.

(** *** IEEE-754 binary64 *)

(** [float(n)] for an integer below [2^63] in absolute value. *)
Definition float_of_Z (z : Z) : float :=
  if (z <? 0)%Z then PrimFloat.opp (PrimFloat.of_uint63 (Uint63.of_Z (- z)))
  else PrimFloat.of_uint63 (Uint63.of_Z z).

Definition binary64 : Float64 float := {|
  of_int := float_of_Z;
  fadd := PrimFloat.add;
  fmul := PrimFloat.mul;
  fdiv := PrimFloat.div;
  feqb := PrimFloat.eqb
|}.

(** ** Strings *)

(** [s.split(" ")]: one cut at every single space, so two spaces in a row
    give an empty word and the empty string gives one empty word. *)
Fixpoint split_space (s : string) : list string :=
  match s with
  | EmptyString => [""]
  | String c rest =>
      if Ascii.eqb c " " then "" :: split_space rest
      else match split_space rest with
           | w :: ws => String c w :: ws
           | [] => [String c ""]
           end
  end.

(** The characters [\w] matches in a [str] pattern: the alphanumeric code
    points (here those below 256) and the underscore. *)
Definition is_word_char (c : ascii) : bool :=
  let n := nat_of_ascii c in
  let between (lo hi : nat) := ((lo <=? n) && (n <=? hi))%nat in
  between 48 57 || between 65 90 || between 95 95 || between 97 122
  || between 170 170 || between 178 179 || between 181 181
  || between 185 186 || between 188 190 || between 192 214
  || between 216 246 || between 248 255.

Definition starts_with_W (s : string) : bool :=
  match s with
  | EmptyString => false
  | String c _ => negb (is_word_char c)
  end.

(** [re.split(r"\W+", s)]: one cut at every maximal run of characters that
    [\w] does not match; a run at either end leaves an empty word there. *)
Fixpoint re_split_W (s : string) : list string :=
  match s with
  | EmptyString => [""]
  | String c rest =>
      if is_word_char c then
        match re_split_W rest with
        | w :: ws => String c w :: ws
        | [] => [String c ""]
        end
      else if starts_with_W rest then re_split_W rest
      else "" :: re_split_W rest
  end.

(** [s.lower()] *)
Definition lower_char (c : ascii) : ascii :=
  let n := nat_of_ascii c in
  let between (lo hi : nat) := ((lo <=? n) && (n <=? hi))%nat in
  if between 65 90 || between 192 214 || between 216 222
  then ascii_of_nat (n + 32) else c.

Fixpoint lower (s : string) : string :=
  match s with
  | EmptyString => EmptyString
  | String c rest => String (lower_char c) (lower rest)
  end.

(** ** Hashing frequency encoder (notebook 01) *)

(** The argument of [hf]: a space-delimited string or a list of words. *)
Inductive hf_input : Type :=
  | Str (s : string)
  | Words (ws : list string).

Section hashing_frequency.
Context {F : Type} {FO : Float64 F}.

(** [numpy.zeros(n)] *)
Definition np_zeros (n : nat) : list F := replicate n (of_int 0).

(** The position [a[i]] reads or writes: a negative index counts from
    the end, and an index outside the array raises. *)
Definition np_index (a : list F) (i : Z) : result nat :=
  let j := if (i <? 0)%Z then (i + Z.of_nat (length a))%Z else i in
  if ((0 <=? j)%Z && (j <? Z.of_nat (length a))%Z)%bool
  then Ok (Z.to_nat j) else Raise IndexError.

(** [a[i] += v] *)
Definition np_iadd (a : list F) (i : Z) (v : F) : result (list F) :=
  k ← np_index a i;
  Ok (alter (λ x, fadd x v) k a).

(** [for term in words: result[h(term) % vecsize] += 1.0] *)
Fixpoint count_terms (vecsize : nat) (h : string → Z)
    (words : list string) (res : list F) : result (list F) :=
  match words with
  | [] => Ok res
  | term :: rest =>
      i ← py_mod (h term) (Z.of_nat vecsize);
      res' ← np_iadd res i (of_int 1);
      count_terms vecsize h rest res'
  end.

(** [sum(result)]: the built-in sum, from the integer [0], left to
    right. *)
Definition py_sum (a : list F) : F := foldl fadd (of_int 0) a.

(** [for i in range(len(result)): result[i] /= total] *)
Definition normalize (total : F) (res : list F) : list F :=
  foldl (λ a i, alter (λ x, np_truediv x total) i a) res
        (seq 0 (length res)).

(** The function [hashing_frequency(vecsize, h)] returns. *)
Definition hf (vecsize : nat) (h : string → Z) (words : hf_input)
    : result (list F) :=
  let words :=
    match words with
    | Str s => split_space s    (* handle both lists of words and
                                   space-delimited strings *)
    | Words ws => ws
    end in
  let res := np_zeros vecsize in
  res ← count_terms vecsize h words res;
  let total := py_sum res in
  Ok (normalize total res).

Definition hashing_frequency (vecsize : nat) (h : string → Z)
    : hf_input → result (list F) :=
  hf vecsize h.
End hashing_frequency.

(** ** Data frames and classifiers (notebook 02) *)

(** One row of a data frame with the columns [label] and [text]. *)
Record row : Type := Row { label : string; text : string }.

(** An object with a [predict] method.  The method gets the object's state
    and gives it back next to the predicted label. *)
Class Classifier (M : Type) := predict : M → string → string * M.

(** *** The memorizing model *)

Module OverfittingSpamModel.
Section with_hash.
(** The built-in [hash] on strings. *)
Variable hash : string → Z.

Record t : Type := Model { legit : gset Z; spam : gset Z }.

(** [__init__] *)
Definition init : t := {| legit := ∅; spam := ∅ |}.

Definition fit (self : t) (df : list row) : t :=
  foldl (λ self tup,
           if bool_decide (label tup = "legitimate")
           then {| legit := legit self ∪ {[ hash (text tup) ]};
                   spam := spam self |}
           else {| legit := legit self;
                   spam := spam self ∪ {[ hash (text tup) ]} |})
        self df.

(** The last branch is [(len(text) % 2 == 0) and "legitimate" or "spam"];
    ["legitimate"] is a true value, so the idiom is a conditional. *)
Definition predict (self : t) (text : string) : string * t :=
  let h := hash text in
  if bool_decide (h ∈ legit self) then ("legitimate", self)
  else if bool_decide (h ∈ spam self) then ("spam", self)
  else (if String.length text mod 2 =? 0 then "legitimate" else "spam", self).

Definition classifier : Classifier t := predict.
End with_hash.
End OverfittingSpamModel.

(** *** The model biased towards spam *)

Module SensitiveSpamModel.

Record t : Type := Model { legit : gset string; spam : gset string }.

(** [__init__] *)
Definition init : t := {| legit := ∅; spam := ∅ |}.

(** A [defaultdict(lambda: 0)] of word counts.  A Python dictionary keeps
    its keys in the order of their first insertion, and [sorted] is stable,
    so the order is part of the value. *)
Definition dict : Type := list (string * nat).

(** [d[word] += 1] *)
Fixpoint incr (word : string) (d : dict) : dict :=
  match d with
  | [] => [(word, 0 + 1)]
  | (k, v) :: d' =>
      if bool_decide (k = word) then (k, v + 1) :: d'
      else (k, v) :: incr word d'
  end.

(** [del d[word]], for a [word] that is a key of [d] *)
Definition del (word : string) (d : dict) : dict :=
  filter (λ kv, kv.1 ≠ word) d.

(** [set(a.keys()).intersection(set(b.keys()))], listed in the order of
    [a]; the loop over it does not depend on the order. *)
Definition common_keys (a b : dict) : list string :=
  filter (λ k, k ∈ b.*1) a.*1.

(** The inner loop of [fit] over the words of one text. *)
Definition count_words (text : string) (target : dict) : dict :=
  foldl (λ target word,
           if 0 <? String.length word then incr (lower word) target
           else target)
        target (re_split_W text).

(** The outer loop of [fit] over the rows. *)
Definition count_rows (df : list row) : dict * dict :=
  foldl (λ '(legit_words, spam_words) tup,
           if bool_decide (label tup = "legitimate")
           then (count_words (text tup) legit_words, spam_words)
           else (legit_words, count_words (text tup) spam_words))
        ([], []) df.

Fixpoint insert_desc (kv : string * nat) (s : list (string * nat))
    : list (string * nat) :=
  match s with
  | [] => [kv]
  | kv' :: s' =>
      if kv.2 <? kv'.2 then kv' :: insert_desc kv s' else kv :: kv' :: s'
  end.

(** [sorted(d.items(), key=lambda kv: kv[1], reverse=True)]: by decreasing
    count, items with the same count in their order in [d]. *)
Definition sorted_desc (d : dict) : list (string * nat) :=
  foldr insert_desc [] d.

Definition fit (self : t) (df : list row) : t :=
  let '(legit_words, spam_words) := count_rows df in
  (* remove words common to both classes *)
  let '(legit_words, spam_words) :=
    foldl (λ '(legit_words, spam_words) word,
             (del word legit_words, del word spam_words))
          (legit_words, spam_words) (common_keys legit_words spam_words) in
  let top_legit_words := sorted_desc legit_words in
  let top_spam_words := sorted_desc spam_words in
  (* store ten times as many words from the spam set *)
  {| legit := list_to_set (take 100 top_legit_words).*1;
     spam := list_to_set (take 1000 top_spam_words).*1 |}.

(** The body of the loop of [predict]: it binds [w = word.lower()] and
    then looks [word] up. *)
Definition score_word (self : t) (scores : nat * nat) (word : string)
    : nat * nat :=
  let '(legit_score, spam_score) := scores in
  let w := lower word in
  if bool_decide (word ∈ legit self) then (legit_score + 1, spam_score)
  else if bool_decide (word ∈ spam self) then (legit_score, spam_score + 1)
  else (legit_score, spam_score).

Definition predict (self : t) (text : string) : string * t :=
  let '(legit_score, spam_score) :=
    foldl (score_word self) (0, 0) (re_split_W text) in
  (* bias results towards spam in the event of ties *)
  (if spam_score <? legit_score then "legitimate" else "spam", self).

#[global] Instance classifier : Classifier t := predict.

(** The prediction as the specification words it: the tokens are lowercased
    as in [fit], then counted against the two vocabularies. *)
Definition predict_spec (self : t) (text : string) : string :=
  let tokens := lower <$> re_split_W text in
  let legit_count := length (filter (λ w, w ∈ legit self) tokens) in
  let spam_count := length (filter (λ w, w ∈ spam self) tokens) in
  if spam_count <? legit_count then "legitimate" else "spam".

End SensitiveSpamModel.

(** The classifier of the accuracy scenario: every input is spam. *)
Definition always_spam : Classifier unit := λ self _, ("spam", self).

(** ** Metrics (notebook 02) *)

Section metrics.
Context {F : Type} {FO : Float64 F}.

(** The first loop of [model_accuracy]. *)
Fixpoint count_correct {M : Type} {C : Classifier M} (osm : M)
    (df : list row) (correct incorrect : nat) : nat * nat * M :=
  match df with
  | [] => (correct, incorrect, osm)
  | row :: rest =>
      let '(predicted, osm) := predict osm (text row) in
      if bool_decide (label row = predicted)
      then count_correct osm rest (correct + 1) incorrect
      else count_correct osm rest correct (incorrect + 1)
  end.

(** The value for the empty frame is the integer [100]; the other is a
    float. *)
Definition model_accuracy {M : Type} {C : Classifier M} (osm : M)
    (df : list row) : result F * M :=
  let '(correct, incorrect, osm) := count_correct osm df 0 0 in
  (if correct + incorrect =? 0 then Ok (of_int 100)
   else
     q ← py_truediv (of_int (Z.of_nat correct))
                    (of_int (Z.of_nat (correct + incorrect)));
     Ok (fmul q (of_int 100)),
   osm).

(** [true_and_predicted]: the labels of a frame and the predictions of a
    model on its texts. *)
Fixpoint predict_all {M : Type} {C : Classifier M} (model : M)
    (texts : list string) : list string :=
  match texts with
  | [] => []
  | txt :: rest =>
      let '(predicted, model) := predict model txt in
      predicted :: predict_all model rest
  end.

Definition true_and_predicted {M : Type} {C : Classifier M}
    (df : list row) (model : M) : list string * list string :=
  (label <$> df, predict_all model (text <$> df)).

(** The three counts both scores start from; [positive_label] has the
    default ["spam"] in the source. *)
Definition actual_positives (actual_values : list string)
    (positive_label : string) : F :=
  of_int (Z.of_nat (length (filter (λ v, v = positive_label) actual_values))).

Definition true_positives (actual_values predicted_values : list string)
    (positive_label : string) : F :=
  of_int (Z.of_nat (length
    (filter (λ t, t.1 = t.2 ∧ t.2 = positive_label)
            (zip actual_values predicted_values)))).

Definition predicted_positives (predicted_values : list string)
    (positive_label : string) : F :=
  of_int (Z.of_nat
    (length (filter (λ v, v = positive_label) predicted_values))).

Definition precision (actual_values predicted_values : list string)
    (positive_label : string) : result F :=
  py_truediv (true_positives actual_values predicted_values positive_label)
             (predicted_positives predicted_values positive_label).

Definition recall (actual_values predicted_values : list string)
    (positive_label : string) : result F :=
  py_truediv (true_positives actual_values predicted_values positive_label)
             (actual_positives actual_values positive_label).

Definition f1_score (actual_values predicted_values : list string)
    (positive_label : string) : result F :=
  precision ← precision actual_values predicted_values positive_label;
  recall ← recall actual_values predicted_values positive_label;
  q ← py_truediv (fmul precision recall) (fadd precision recall);
  Ok (fmul (of_int 2) q).

Definition fbeta_score (actual_values predicted_values : list string)
    (beta : F) (positive_label : string) : result F :=
  precision ← precision actual_values predicted_values positive_label;
  recall ← recall actual_values predicted_values positive_label;
  q ← py_truediv (fmul precision recall)
                 (fadd (fmul (fmul beta beta) precision) recall);
  Ok (fmul (fadd (of_int 1) (fmul beta beta)) q).
End metrics.

(** Modelled from the spec: the confusion tally.  The function that
    tabulates it, [binary_confusion_matrix] of the package [mlworkflows], is
    not among the sources; the spec has the four counts computed by pairwise
    comparison of the observed and the predicted labels with the positive
    label. *)
Record tally : Type := Tally {
  true_positive : nat;
  true_negative : nat;
  false_positive : nat;
  false_negative : nat
}.

Definition confusion_tally (actual predicted : list string)
    (positive_label : string) : tally :=
  let pairs := zip actual predicted in
  let count (a_pos p_pos : bool) :=
    length (filter (λ t, bool_decide (t.1 = positive_label) = a_pos
                         ∧ bool_decide (t.2 = positive_label) = p_pos)
                   pairs) in
  {| true_positive := count true true;
     true_negative := count false false;
     false_positive := count false true;
     false_negative := count true false |}.

(** ** Vocabulary of the statements *)

(** The number of tokens of [ws] that [h] sends to bucket [i] of [vecsize]. *)
Definition bucket_count (vecsize : nat) (h : string → Z) (ws : list string)
    (i : nat) : nat :=
  length (filter (λ t, (h t `mod` Z.of_nat vecsize)%Z = Z.of_nat i) ws).

(** A natural number as an exact rational. *)
Definition Qc_of_nat (n : nat) : Qc := Qc_of_Z (Z.of_nat n).

(** The label sequences of the scoring scenario. *)
Definition scenario_actual : list string :=
  ["spam"; "spam"; "legitimate"; "spam"].
Definition scenario_predicted : list string :=
  ["spam"; "legitimate"; "legitimate"; "spam"].

(** A label of the two-class data model. *)
Definition binary_label (l : string) : Prop := l = "spam" ∨ l = "legitimate".

(** A finite, non-negative number. *)
Definition nonneg (x : ideal) : Prop := ∃ q : Qc, x = Fin q ∧ (0 ≤ q)%Qc.

(** The array after the counting loop, from the count of each bucket. *)
Definition count_vec (cnt : nat → nat) (n : nat) : list ideal :=
  (λ i, Fin (Qc_of_nat (cnt i))) <$> seq 0 n.

(** The number of rows whose label is the predicted one. *)
Definition matches {M : Type} {C : Classifier M} (osm : M) (df : list row)
    : nat :=
  length (filter (λ t, t.1 = t.2)
                 (zip (label <$> df) (predict_all osm (text <$> df)))).

(** ** Shingles (notebook 01) *)

(** [s[i:j]]: an index below zero counts from the end, and both ends are
    clipped to the string. *)
Definition py_slice (s : string) (i j : Z) : string :=
  let len := Z.of_nat (String.length s) in
  let clip (x : Z) :=
    if (x <? 0)%Z then Z.max (x + len) 0 else Z.min x len in
  let lo := clip i in
  let hi := clip j in
  substring (Z.to_nat lo) (Z.to_nat (hi - lo)) s.

(** [range(n)] *)
Definition py_range (n : Z) : list Z := Z.of_nat <$> seq 0 (Z.to_nat n).

(** The function [doc2shingles(k)] returns. *)
Definition kshingles (k : Z) (doc : string) : list string :=
  (λ i, py_slice doc i (i + k))
    <$> py_range (Z.of_nat (String.length doc) - k + 1).

Definition doc2shingles (k : Z) : string → list string := kshingles k.

(** ** Word-length features (notebook 02) *)

Section word_lengths.
Context {F : Type} {FO : Float64 F}.

(** [a[i] = v] *)
Definition np_setitem (a : list F) (i : Z) (v : F) : result (list F) :=
  k ← np_index a i;
  Ok (<[k := v]> a).

(** The loop of [count_frequency]:
    [idx = min(len(word), MAX_LEN); result[idx] += 1.0]. *)
Fixpoint count_frequency_loop (MAX_LEN : nat) (words : list string)
    (res : list F) : result (list F) :=
  match words with
  | [] => Ok res
  | word :: rest =>
      let idx := Z.of_nat (Nat.min (String.length word) MAX_LEN) in
      res' ← np_iadd res idx (of_int 1);
      count_frequency_loop MAX_LEN rest res'
  end.

(** [MAX_LEN] has the default 7 in the source. *)
Definition count_frequency (txt : string) (MAX_LEN : nat) : result (list F) :=
  let res := np_zeros (MAX_LEN + 1) in
  count_frequency_loop MAX_LEN (re_split_W txt) res.

(** The loop of [count_existence]:
    [idx = min(len(word), MAX_LEN); result[idx] = 1.0]. *)
Fixpoint count_existence_loop (MAX_LEN : nat) (words : list string)
    (res : list F) : result (list F) :=
  match words with
  | [] => Ok res
  | word :: rest =>
      let idx := Z.of_nat (Nat.min (String.length word) MAX_LEN) in
      res' ← np_setitem res idx (of_int 1);
      count_existence_loop MAX_LEN rest res'
  end.

(** [MAX_LEN] has the default 15 in the source. *)
Definition count_existence (txt : string) (MAX_LEN : nat) : result (list F) :=
  let res := np_zeros (MAX_LEN + 1) in
  count_existence_loop MAX_LEN (re_split_W txt) res.
End word_lengths.

(** ** More vocabulary of the statements *)

(** The words the encoder counts for an input. *)
Definition hf_tokens (input : hf_input) : list string :=
  match input with
  | Str s => split_space s
  | Words ws => ws
  end.

(** The bucket of a word in the word-length features. *)
Definition length_bucket (MAX_LEN : nat) (word : string) : nat :=
  Nat.min (String.length word) MAX_LEN.

(** The number of words of a text that fall in a bucket. *)
Definition length_count (MAX_LEN : nat) (words : list string) (i : nat)
    : nat :=
  length (filter (λ w, length_bucket MAX_LEN w = i) words).

(** The last character of a word, as a string. *)
Definition last_char (w : string) : string :=
  substring (String.length w - 1) 1 w.

(** A document from its shingles: the first shingle, then the last
    character of every other one. *)
Definition unshingle (shingles : list string) : string :=
  match shingles with
  | [] => ""
  | first :: rest => first +:+ foldr String.append "" (last_char <$> rest)
  end.

(** The array of [count_existence] during its loop, from the buckets that
    were marked. *)
Definition exist_vec {F : Type} {FO : Float64 F} (marked : nat → bool)
    (n : nat) : list F :=
  (λ i, if marked i then of_int 1 else of_int 0) <$> seq 0 n.

(** The counts of the scores, as natural numbers: the labels equal to
    the positive label in a sequence, and the positions where both
    sequences have it. *)
Definition n_positives (values : list string) (positive_label : string)
    : nat :=
  length (filter (λ v, v = positive_label) values).

Definition n_true_positives (actual_values predicted_values : list string)
    (positive_label : string) : nat :=
  length (filter (λ t, t.1 = t.2 ∧ t.2 = positive_label)
                 (zip actual_values predicted_values)).

(** ** Vocabulary for the word counts of [SensitiveSpamModel.fit] *)

(** [d[word]] for a [defaultdict(lambda: 0)] read without inserting: the
    count stored under [word], 0 when it is not a key. *)
Definition dict_get (word : string) (d : SensitiveSpamModel.dict) : nat :=
  sum_list (filter (λ kv, kv.1 = word) d).*2.

(** How many words of [text], as [fit] cuts and lowercases it, are
    [word]. *)
Definition occurrences (word text : string) : nat :=
  length (filter (λ t, t ≠ "" ∧ lower t = word) (re_split_W text)).

(** The occurrences of [word] in the texts of the rows that [select]
    picks. *)
Definition class_count (select : row → bool) (df : list row) (word : string)
    : nat :=
  sum_list (occurrences word <$> (text <$> filter (λ r, select r = true) df)).

Definition is_legitimate (r : row) : bool :=
  bool_decide (label r = "legitimate").

(** The items of [a] whose key is not a key of [b]. *)
Definition exclusive (a b : SensitiveSpamModel.dict)
    : SensitiveSpamModel.dict :=
  filter (λ kv, kv.1 ∉ b.*1) a.

(** The characters of a string. *)
Fixpoint chars (s : string) : list ascii :=
  match s with
  | EmptyString => []
  | String c rest => c :: chars rest
  end.

(** ** Vocabulary for the split at single spaces *)

(** [" ".join(ws)] *)
Fixpoint join_space (ws : list string) : string :=
  match ws with
  | [] => ""
  | w :: rest =>
      match rest with
      | [] => w
      | _ :: _ => w +:+ " " +:+ join_space rest
      end
  end.

(** A word without a space. *)
Definition space_free (w : string) : Prop := " "%char ∉ chars w.

(** [s.count(" ")] *)
Definition count_spaces (s : string) : nat :=
  length (filter (λ c, c = " "%char) (chars s)).

(** ** Vocabulary for binary64 *)

(** A float that is one of the two zeros. *)
Definition float_zero (x : float) : Prop := ∃ s, Prim2SF x = S754_zero s.

(** * Proofs *)

(** ** Exact rationals *)

Lemma Qc_of_nat_add (a b : nat) :
  Qc_of_nat (a + b) = (Qc_of_nat a + Qc_of_nat b)%Qc.
Proof. unfold Qc_of_nat. by rewrite Nat2Z.inj_add, Z2Qc_inj_add. Qed.

Lemma Qc_of_nat_nonneg (a : nat) : (0 ≤ Qc_of_nat a)%Qc.
Proof.
  unfold Qc_of_nat. rewrite <- Z2Qc_inj_0, <- Z2Qc_inj_le. lia.
Qed.

Lemma Qc_of_nat_pos (a : nat) : 0 < a → (0 < Qc_of_nat a)%Qc.
Proof.
  intros Ha. unfold Qc_of_nat. rewrite <- Z2Qc_inj_0, <- Z2Qc_inj_lt. lia.
Qed.

Lemma Qc_div_add (a b n : Qc) : (a / n + b / n = (a + b) / n)%Qc.
Proof. unfold Qcdiv. by rewrite Qcmult_plus_distr_l. Qed.

Lemma Qc_div_nonneg (a n : Qc) : (0 ≤ a → 0 < n → 0 ≤ a / n)%Qc.
Proof.
  intros Ha Hn. unfold Qcdiv. apply Qcmult_nonneg_nonneg; [done|].
  apply Qclt_le_weak. by apply Qcinv_pos.
Qed.

(** ** The hashing frequency encoder *)

Section encoder_generic.
Context {F : Type} {FO : Float64 F}.

Lemma normalize_loop (g : F → F) (todo pre : list F) :
  foldl (λ a i, alter g i a) (pre ++ todo)
        (seq (length pre) (length todo))
  = pre ++ (g <$> todo).
Proof.
  revert pre. induction todo as [|x todo IH]; intros pre; [done|].
  pose proof (alter_app_r g pre (x :: todo) 0) as E.
  rewrite Nat.add_0_r in E. simpl in *. rewrite E.
  specialize (IH (pre ++ [g x])).
  rewrite length_app, Nat.add_1_r, <- !(assoc (++)) in IH. apply IH.
Qed.

Lemma normalize_fmap (total : F) (res : list F) :
  normalize total res = (λ x, np_truediv x total) <$> res.
Proof. apply (normalize_loop _ res []). Qed.

Lemma np_index_in_range (a : list F) (i : Z) :
  (0 ≤ i < Z.of_nat (length a))%Z → np_index a i = Ok (Z.to_nat i).
Proof.
  intros Hi. unfold np_index.
  destruct (Z.ltb_spec i 0); [lia|].
  destruct (Z.leb_spec 0 i); [|lia].
  destruct (Z.ltb_spec i (Z.of_nat (length a))); [done|lia].
Qed.
End encoder_generic.

Lemma count_vec_ext (f g : nat → nat) (n : nat) :
  (∀ i, i < n → f i = g i) → count_vec f n = count_vec g n.
Proof.
  intros Hfg. apply list_fmap_ext. intros k i Hi.
  apply lookup_seq in Hi as [-> Hi]. by rewrite Hfg.
Qed.

Lemma count_vec_zeros (n : nat) : np_zeros n = count_vec (λ _, 0) n.
Proof.
  unfold np_zeros, count_vec. apply list_eq. intros i.
  rewrite list_lookup_fmap.
  destruct (decide (i < n)) as [Hi|Hi].
  - by rewrite lookup_replicate_2, lookup_seq_lt.
  - rewrite (proj1 (lookup_replicate_None _ _ _)), lookup_seq_ge by lia. done.
Qed.

Lemma count_vec_incr (cnt : nat → nat) (n j : nat) :
  alter (λ x, fadd x (of_int 1)) j (count_vec cnt n)
  = count_vec (λ i, cnt i + (if decide (j = i) then 1 else 0)) n.
Proof.
  unfold count_vec. apply list_eq. intros i.
  destruct (decide (j = i)) as [->|Hne].
  - rewrite list_lookup_alter_eq, !list_lookup_fmap.
    destruct (seq 0 n !! i) as [k|] eqn:Hk; [|done]. simpl.
    apply lookup_seq in Hk as [-> _]. rewrite decide_True by done.
    by rewrite Qc_of_nat_add.
  - rewrite list_lookup_alter_ne, !list_lookup_fmap by done.
    destruct (seq 0 n !! i) as [k|] eqn:Hk; [|done]. simpl.
    apply lookup_seq in Hk as [-> _]. rewrite decide_False by done.
    by rewrite Nat.add_0_r.
Qed.

Lemma bucket_count_cons (n : nat) (h : string → Z) (t : string)
    (ws : list string) (i : nat) :
  bucket_count n h (t :: ws) i
  = (if decide ((h t `mod` Z.of_nat n)%Z = Z.of_nat i) then 1 else 0)
    + bucket_count n h ws i.
Proof.
  unfold bucket_count. rewrite filter_cons. by case_decide.
Qed.

Lemma count_terms_spec (n : nat) (h : string → Z) (ws : list string)
    (cnt : nat → nat) :
  0 < n →
  count_terms n h ws (count_vec cnt n)
  = Ok (count_vec (λ i, cnt i + bucket_count n h ws i) n).
Proof.
  intros Hn. revert cnt. induction ws as [|t ws IH]; intros cnt.
  - simpl. f_equal. apply count_vec_ext. intros i _.
    unfold bucket_count. simpl. lia.
  - simpl. unfold py_mod.
    destruct (Z.eqb_spec (Z.of_nat n) 0) as [|_]; [lia|]. simpl.
    pose proof (Z.mod_pos_bound (h t) (Z.of_nat n)) as Hb.
    unfold np_iadd. rewrite np_index_in_range; last first.
    { unfold count_vec. rewrite length_fmap, length_seq. lia. }
    simpl. rewrite count_vec_incr, IH. f_equal.
    apply count_vec_ext. intros i _. rewrite bucket_count_cons.
    repeat case_decide; lia.
Qed.

Lemma sum_indicator (j start len : nat) :
  sum_list_with (λ i, if decide (j = i) then 1 else 0) (seq start len)
  = if decide (start ≤ j < start + len) then 1 else 0.
Proof.
  revert start. induction len as [|len IH]; intros start; simpl.
  - case_decide; [lia|done].
  - rewrite IH. repeat case_decide; lia.
Qed.

Lemma sum_list_with_add (f g : nat → nat) (l : list nat) :
  sum_list_with (λ i, f i + g i) l = sum_list_with f l + sum_list_with g l.
Proof. induction l as [|x l IH]; simpl; lia. Qed.

Lemma sum_list_with_ext_seq (f g : nat → nat) (l : list nat) :
  (∀ i, f i = g i) → sum_list_with f l = sum_list_with g l.
Proof. intros Hfg. induction l as [|x l IH]; simpl; [done|]. by rewrite Hfg, IH. Qed.

Lemma sum_bucket_count (n : nat) (h : string → Z) (ws : list string) :
  0 < n → sum_list_with (bucket_count n h ws) (seq 0 n) = length ws.
Proof.
  intros Hn. induction ws as [|t ws IH].
  - unfold bucket_count. simpl. induction (seq 0 n); simpl; lia.
  - pose proof (Z.mod_pos_bound (h t) (Z.of_nat n)) as Hb.
    rewrite (sum_list_with_ext_seq _
      (λ i, (if decide (Z.to_nat (h t `mod` Z.of_nat n) = i) then 1 else 0)
            + bucket_count n h ws i)).
    + rewrite sum_list_with_add, sum_indicator, IH.
      rewrite decide_True by lia. done.
    + intros i. rewrite bucket_count_cons. repeat case_decide; lia.
Qed.

(** The built-in sum of counts divided by [d], from an accumulator of the
    same form. *)
Lemma foldl_add_fractions (cnt : nat → nat) (d : Qc) (l : list nat) (a : nat) :
  foldl ideal_add (Fin (Qc_of_nat a / d))
        ((λ i, Fin (Qc_of_nat (cnt i) / d)) <$> l)
  = Fin (Qc_of_nat (a + sum_list_with cnt l) / d).
Proof.
  revert a. induction l as [|x l IH]; intros a; simpl.
  - by rewrite Nat.add_0_r.
  - rewrite Qc_div_add, <- Qc_of_nat_add, IH. by rewrite Nat.add_assoc.
Qed.

Lemma Qc_div_1 (q : Qc) : (q / 1 = q)%Qc.
Proof. apply Qcdiv_right_id. Qed.

Lemma py_sum_count_vec (cnt : nat → nat) (n : nat) :
  py_sum (count_vec cnt n) = Fin (Qc_of_nat (sum_list_with cnt (seq 0 n))).
Proof.
  unfold py_sum, count_vec.
  pose proof (foldl_add_fractions cnt 1 (seq 0 n) 0) as E.
  rewrite !Qc_div_1 in E. simpl in E. rewrite <- E.
  f_equal. apply list_fmap_ext. intros i k _. by rewrite Qc_div_1.
Qed.

Lemma ideal_div_fin (a d : Qc) :
  d ≠ 0%Qc → ideal_div (Fin a) (Fin d) = Fin (a / d).
Proof. intros Hd. simpl. unfold Qc_zero. by rewrite bool_decide_eq_false_2. Qed.

Lemma Qc_of_nat_ne_0 (n : nat) : 0 < n → Qc_of_nat n ≠ 0%Qc.
Proof.
  intros Hn E. apply Qc_of_nat_pos in Hn. rewrite E in Hn.
  by apply Qclt_not_eq in Hn.
Qed.

(** The result of the encoder on a non-empty list of words, in closed
    form. *)
Lemma hashing_frequency_words (n : nat) (h : string → Z) (ws : list string) :
  0 < n → ws ≠ [] →
  hashing_frequency n h (Words ws)
  = Ok ((λ i, Fin (Qc_of_nat (bucket_count n h ws i)
                   / Qc_of_nat (length ws))) <$> seq 0 n).
Proof.
  intros Hn Hws. unfold hashing_frequency, hf.
  rewrite count_vec_zeros, count_terms_spec by done. simpl.
  rewrite normalize_fmap, py_sum_count_vec.
  rewrite (sum_list_with_ext_seq _ (bucket_count n h ws)) by done.
  rewrite sum_bucket_count by done.
  f_equal. unfold count_vec. rewrite <- list_fmap_compose.
  apply list_fmap_ext. intros i k _. simpl. unfold np_truediv. simpl.
  apply ideal_div_fin, Qc_of_nat_ne_0.
  destruct ws; [done|simpl; lia].
Qed.

(** C1: for every non-empty list of words, every vector size [n > 0] and
    every hash function [h], the encoder returns a vector of exactly [n]
    entries; entry [i] is the number of words [t] with [h t mod n = i] divided
    by the number of words, every entry is finite and non-negative, and the
    built-in sum of the entries is 1 (in exact arithmetic). *)
Theorem hashing_frequency_histogram (n : nat) (h : string → Z)
    (ws : list string) :
  0 < n → ws ≠ [] →
  ∃ v : list ideal,
    hashing_frequency n h (Words ws) = Ok v
    ∧ length v = n
    ∧ (∀ i, i < n →
         v !! i = Some (Fin (Qc_of_nat (bucket_count n h ws i)
                             / Qc_of_nat (length ws))))
    ∧ (∀ x, x ∈ v → nonneg x)
    ∧ py_sum v = Fin 1.
Proof.
  intros Hn Hws. eexists. split; [by apply hashing_frequency_words|].
  assert (0 < length ws) as Hlen by (destruct ws; [done|simpl; lia]).
  split; [by rewrite length_fmap, length_seq|].
  split; [|split].
  - intros i Hi. by rewrite list_lookup_fmap, lookup_seq_lt.
  - intros x Hx. apply list_elem_of_fmap in Hx as (i & -> & _).
    eexists. split; [done|].
    apply Qc_div_nonneg; [apply Qc_of_nat_nonneg|by apply Qc_of_nat_pos].
  - unfold py_sum.
    pose proof (foldl_add_fractions (bucket_count n h ws)
                  (Qc_of_nat (length ws)) (seq 0 n) 0) as E.
    rewrite sum_bucket_count in E by done. simpl in E.
    replace (Qc_of_nat 0 / Qc_of_nat (length ws))%Qc with (Qc_of_Z 0) in E.
    + simpl. rewrite E. f_equal. unfold Qcdiv.
      apply Qcmult_inv_r. by apply Qc_of_nat_ne_0.
    + unfold Qcdiv, Qc_of_nat. change (Z.of_nat 0) with 0%Z.
      by rewrite Z2Qc_inj_0, Qcmult_0_l.
Qed.

Lemma hashing_frequency_histogram_witness :
  ∃ v : list ideal,
    hashing_frequency 8 (λ t, Z.of_nat (String.length t))
                      (Words ["the"; "quick"; "brown"; "fox"]) = Ok v
    ∧ length v = 8
    ∧ (∀ i, i < 8 →
         v !! i = Some (Fin (Qc_of_nat
                   (bucket_count 8 (λ t, Z.of_nat (String.length t))
                                 ["the"; "quick"; "brown"; "fox"] i)
                   / Qc_of_nat (length ["the"; "quick"; "brown"; "fox"]))))
    ∧ (∀ x, x ∈ v → nonneg x)
    ∧ py_sum v = Fin 1.
Proof.
  apply (hashing_frequency_histogram 8 (λ t, Z.of_nat (String.length t))
           ["the"; "quick"; "brown"; "fox"]); [lia | done].
Defined.

(** In IEEE-754 binary64 arithmetic the sum is 1 only up to rounding: ten
    words in ten buckets give ten entries that are the double nearest to
    0.1, and their built-in sum is the double just below 1. *)
Lemma hashing_frequency_sum_binary64 :
  (v ← hashing_frequency (FO:=binary64) 16 (λ t, Z.of_nat (String.length t))
         (Words ["a"; "bb"; "ccc"; "dddd"; "eeeee"; "ffffff"; "ggggggg";
                 "hhhhhhhh"; "iiiiiiiii"; "jjjjjjjjjj"]);
   Ok (py_sum (FO:=binary64) v))
  = Ok 0x1.fffffffffffffp-1%float.
Proof. reflexivity. Qed.

(** C2, as the code has it: on the empty list of words the normalization
    divides the float64 zero by the float64 zero, which in numpy only warns;
    the call returns a vector of [n] entries, each of them NaN, and raises
    nothing, whatever the vector size and the hash function. *)
Theorem hashing_frequency_empty_nan (n : nat) (h : string → Z) :
  hashing_frequency n h (Words []) = Ok (replicate n NaN).
Proof.
  unfold hashing_frequency, hf. simpl. rewrite normalize_fmap.
  rewrite count_vec_zeros, py_sum_count_vec.
  replace (sum_list_with (λ _, 0) (seq 0 n)) with 0
    by (induction (seq 0 n); simpl; congruence).
  rewrite <- count_vec_zeros. unfold np_zeros.
  by rewrite fmap_replicate.
Qed.

(** C2, as stated, fails: with two buckets the empty list of words gives
    the vector [NaN; NaN], not a division-by-zero fault. *)
Lemma hashing_frequency_empty_no_fault :
  hashing_frequency 2 (λ _, 0%Z) (Words []) = Ok [NaN; NaN]
  ∧ hashing_frequency (F:=ideal) 2 (λ _, 0%Z) (Words [])
    ≠ Raise ZeroDivisionError.
Proof. split; [reflexivity | discriminate]. Qed.

(** The same in IEEE-754 binary64 arithmetic. *)
Lemma hashing_frequency_empty_nan_binary64 (n : nat) (h : string → Z) :
  hashing_frequency (FO:=binary64) n h (Words []) = Ok (replicate n nan).
Proof.
  unfold hashing_frequency, hf. simpl. rewrite normalize_fmap.
  assert (py_sum (FO:=binary64) (np_zeros n) = 0%float) as ->.
  { unfold py_sum, np_zeros. induction n as [|n IH]; [done|apply IH]. }
  unfold np_zeros. by rewrite fmap_replicate.
Qed.

Lemma split_space_nonempty (s : string) : split_space s ≠ [].
Proof.
  destruct s as [|c s]; [done|]. simpl.
  destruct (Ascii.eqb c " "); [done|]. by destruct (split_space s).
Qed.

Lemma split_space_join (s : string) : join_space (split_space s) = s.
Proof.
  induction s as [|c s IH]; [done|]. simpl.
  pose proof (split_space_nonempty s) as Hne.
  destruct (Ascii.eqb_spec c " ") as [->|Hc].
  - destruct (split_space s) as [|w ws]; [done|].
    change (join_space ("" :: w :: ws))
      with (String " " (join_space (w :: ws))).
    by rewrite IH.
  - destruct (split_space s) as [|w ws]; [done|].
    destruct ws as [|w' ws]; simpl in *; by rewrite <- IH.
Qed.

Lemma split_space_space_free (s : string) :
  Forall space_free (split_space s).
Proof.
  induction s as [|c s IH]; simpl.
  - repeat constructor. unfold space_free. simpl. apply not_elem_of_nil.
  - destruct (Ascii.eqb_spec c " ") as [->|Hc].
    + constructor; [|done]. unfold space_free. simpl. apply not_elem_of_nil.
    + destruct (split_space s) as [|w ws];
        [repeat constructor; unfold space_free; simpl;
         rewrite elem_of_cons, elem_of_nil; naive_solver|].
      inversion IH as [|? ? Hw Hws]; subst. constructor; [|done].
      unfold space_free in *. simpl. rewrite elem_of_cons. naive_solver.
Qed.

Lemma length_split_space (s : string) :
  length (split_space s) = S (count_spaces s).
Proof.
  unfold count_spaces. induction s as [|c s IH]; [done|]. simpl.
  pose proof (split_space_nonempty s) as Hne.
  rewrite filter_cons.
  destruct (Ascii.eqb_spec c " ") as [->|Hc].
  - rewrite decide_True by done. simpl. by rewrite IH.
  - rewrite decide_False by done.
    destruct (split_space s) as [|w ws]; [done|]. by rewrite <- IH.
Qed.

Lemma split_space_word (w : string) : space_free w → split_space w = [w].
Proof.
  unfold space_free. induction w as [|c w IH]; [done|]. simpl.
  rewrite elem_of_cons. intros Hfree.
  destruct (Ascii.eqb_spec c " ") as [->|Hc]; [naive_solver|].
  rewrite IH by naive_solver. done.
Qed.

Lemma split_space_app (w rest : string) :
  space_free w →
  split_space (w +:+ " " +:+ rest) = w :: split_space rest.
Proof.
  unfold space_free. induction w as [|c w IH]; [done|]. simpl.
  rewrite elem_of_cons. intros Hfree.
  destruct (Ascii.eqb_spec c " ") as [->|Hc]; [naive_solver|].
  change (String.append w (String " " rest)) with (w +:+ " " +:+ rest).
  rewrite IH by naive_solver. done.
Qed.

Lemma join_space_split (ws : list string) :
  ws ≠ [] → Forall space_free ws → split_space (join_space ws) = ws.
Proof.
  induction ws as [|w ws IH]; [done|]. intros _ Hfree.
  inversion Hfree as [|? ? Hw Hws]; subst.
  destruct ws as [|w' ws]; [by apply split_space_word|].
  change (join_space (w :: w' :: ws))
    with (w +:+ " " +:+ join_space (w' :: ws)).
  rewrite split_space_app by done. f_equal. by apply IH.
Qed.

(** C10: the encoder splits a string at every single space and goes on as
    for the list of words.  The split is the one of [split(" ")]: the words
    have no space, there is one more word than there are spaces, joining the
    words with single spaces gives the string back, and any non-empty list of
    words without spaces is what the split of its joined string gives.  The
    empty string gives the one word [""], not the empty list; so for
    [n > 0] the encoder returns a vector of [n] entries with 1 in the bucket
    of [""] and 0 elsewhere, and no division by zero takes place. *)
Theorem hashing_frequency_empty_string (n : nat) (h : string → Z) :
  0 < n →
  (∀ s, hashing_frequency (F:=ideal) n h (Str s)
        = hashing_frequency n h (Words (split_space s)))
  ∧ (∀ s, Forall space_free (split_space s)
          ∧ length (split_space s) = S (count_spaces s)
          ∧ join_space (split_space s) = s)
  ∧ (∀ ws, ws ≠ [] → Forall space_free ws →
           split_space (join_space ws) = ws)
  ∧ split_space "" = [""]
  ∧ ∃ v : list ideal,
      hashing_frequency n h (Str "") = Ok v
      ∧ length v = n
      ∧ v !! Z.to_nat (h "" `mod` Z.of_nat n) = Some (Fin 1)
      ∧ (∀ i, i < n → i ≠ Z.to_nat (h "" `mod` Z.of_nat n) →
           v !! i = Some (Fin 0)).
Proof.
  intros Hn. split; [done|].
  split; [intros s; split; [apply split_space_space_free|];
          split; [apply length_split_space|apply split_space_join]|].
  split; [apply join_space_split|]. split; [done|].
  pose proof (Z.mod_pos_bound (h "") (Z.of_nat n)) as Hb.
  eexists. split.
  { change (Str "") with (Str EmptyString). unfold hashing_frequency, hf.
    change (split_space EmptyString) with [""].
    by apply (hashing_frequency_words n h [""]). }
  split; [by rewrite length_fmap, length_seq|].
  assert (Qc_of_nat 1 ≠ 0%Qc) as H1 by (apply Qc_of_nat_ne_0; lia).
  split.
  - rewrite list_lookup_fmap, lookup_seq_lt by lia. simpl.
    rewrite bucket_count_cons, decide_True by lia.
    unfold Qcdiv. by rewrite Qcmult_inv_r.
  - intros i Hi Hne. rewrite list_lookup_fmap, lookup_seq_lt by lia. simpl.
    rewrite bucket_count_cons, decide_False by lia.
    replace (Qc_of_nat (0 + bucket_count n h [] i)) with 0%Qc
      by (symmetry; apply Z2Qc_inj_0).
    unfold Qcdiv. by rewrite Qcmult_0_l.
Qed.

Lemma hashing_frequency_empty_string_witness :
  (∀ s, hashing_frequency (F:=ideal) 4 (λ _, 7%Z) (Str s)
        = hashing_frequency 4 (λ _, 7%Z) (Words (split_space s)))
  ∧ (∀ s, Forall space_free (split_space s)
          ∧ length (split_space s) = S (count_spaces s)
          ∧ join_space (split_space s) = s)
  ∧ (∀ ws, ws ≠ [] → Forall space_free ws →
           split_space (join_space ws) = ws)
  ∧ split_space "" = [""]
  ∧ ∃ v : list ideal,
      hashing_frequency 4 (λ _, 7%Z) (Str "") = Ok v
      ∧ length v = 4
      ∧ v !! Z.to_nat (7 `mod` Z.of_nat 4) = Some (Fin 1)
      ∧ (∀ i, i < 4 → i ≠ Z.to_nat (7 `mod` Z.of_nat 4) →
           v !! i = Some (Fin 0)).
Proof. apply (hashing_frequency_empty_string 4 (λ _, 7%Z)). lia. Defined.

(** ** The F-scores *)

Section scores_generic.
Context {F : Type} {FO : Float64 F}.
Hypothesis zero_eq_zero : feqb (of_int 0) (of_int 0) = true.

Lemma py_truediv_raise (x y : F) (e : exn) :
  py_truediv x y = Raise e → e = ZeroDivisionError.
Proof.
  unfold py_truediv.
  destruct (feqb y (of_int 0)); intros E; inversion E; reflexivity.
Qed.

Lemma precision_no_predicted_positives (actual predicted : list string)
    (positive_label : string) :
  length (filter (λ v, v = positive_label) predicted) = 0 →
  precision actual predicted positive_label = Raise ZeroDivisionError.
Proof.
  intros E. unfold precision, predicted_positives, py_truediv.
  rewrite E. change (Z.of_nat 0) with 0%Z. by rewrite zero_eq_zero.
Qed.

Lemma recall_no_actual_positives (actual predicted : list string)
    (positive_label : string) :
  length (filter (λ v, v = positive_label) actual) = 0 →
  recall actual predicted positive_label = Raise ZeroDivisionError.
Proof.
  intros E. unfold recall, actual_positives, py_truediv.
  rewrite E. change (Z.of_nat 0) with 0%Z. by rewrite zero_eq_zero.
Qed.

Lemma scores_raise (actual predicted : list string) (positive_label : string) :
  length (filter (λ v, v = positive_label) predicted) = 0
  ∨ length (filter (λ v, v = positive_label) actual) = 0 →
  f1_score actual predicted positive_label = Raise ZeroDivisionError
  ∧ ∀ beta, fbeta_score actual predicted beta positive_label
            = Raise ZeroDivisionError.
Proof.
  intros Hz. unfold f1_score, fbeta_score.
  destruct (precision actual predicted positive_label) as [p|e] eqn:Hp.
  - destruct Hz as [Hz|Hz].
    + by rewrite precision_no_predicted_positives in Hp.
    + by rewrite recall_no_actual_positives.
  - apply py_truediv_raise in Hp as ->. done.
Qed.
End scores_generic.

(** C4: when no label is predicted positive, or no label is actually
    positive, both scores raise [ZeroDivisionError]; the result of the call
    is the exception, not a number. *)
Theorem scores_raise_zero_division (actual predicted : list string)
    (positive_label : string) :
  length actual = length predicted →
  length (filter (λ v, v = positive_label) predicted) = 0
  ∨ length (filter (λ v, v = positive_label) actual) = 0 →
  f1_score (F:=ideal) actual predicted positive_label
  = Raise ZeroDivisionError
  ∧ ∀ beta : ideal, fbeta_score actual predicted beta positive_label
                    = Raise ZeroDivisionError.
Proof. intros _. by apply scores_raise. Qed.

Lemma scores_raise_zero_division_witness :
  f1_score (F:=ideal) ["spam"; "legitimate"] ["legitimate"; "legitimate"]
           "spam"
  = Raise ZeroDivisionError
  ∧ ∀ beta : ideal,
      fbeta_score ["spam"; "legitimate"] ["legitimate"; "legitimate"] beta
                  "spam"
      = Raise ZeroDivisionError.
Proof.
  apply (scores_raise_zero_division ["spam"; "legitimate"]
           ["legitimate"; "legitimate"] "spam"); [reflexivity|].
  left. reflexivity.
Defined.

(** The same in IEEE-754 binary64 arithmetic. *)
Lemma scores_raise_zero_division_binary64 (actual predicted : list string)
    (positive_label : string) :
  length (filter (λ v, v = positive_label) predicted) = 0
  ∨ length (filter (λ v, v = positive_label) actual) = 0 →
  f1_score (FO:=binary64) actual predicted positive_label
  = Raise ZeroDivisionError
  ∧ ∀ beta : float,
      fbeta_score (FO:=binary64) actual predicted beta positive_label
      = Raise ZeroDivisionError.
Proof. by apply scores_raise. Qed.

Lemma ideal_one_mul (x : ideal) : fmul (fmul (of_int 1) (of_int 1)) x = x.
Proof.
  destruct x as [a| | |]; try reflexivity.
  simpl. f_equal. by rewrite Z2Qc_inj_1, !Qcmult_1_l.
Qed.

Lemma ideal_one_plus_one :
  fadd (of_int 1) (fmul (of_int 1) (of_int 1)) = of_int (F:=ideal) 2.
Proof. simpl. f_equal. by apply Qc_is_canon. Qed.

(** On every input the two functions give the same result, a number or an
    exception. *)
Lemma f1_score_fbeta_score (actual predicted : list string)
    (positive_label : string) :
  f1_score (F:=ideal) actual predicted positive_label
  = fbeta_score actual predicted (of_int 1) positive_label.
Proof.
  unfold f1_score, fbeta_score.
  destruct (precision actual predicted positive_label) as [p|e]; [|done].
  destruct (recall actual predicted positive_label) as [r|e]; [|done].
  cbn [mbind result_bind]. rewrite ideal_one_mul, ideal_one_plus_one.
  by destruct (py_truediv _ _).
Qed.

(** C3: for label sequences of equal length and a positive label for
    which precision and recall are defined (some label is predicted positive
    and some is actually positive) and their sum is not zero, [f1_score] and
    [fbeta_score] with [beta = 1] are both defined and return the same
    number. *)
Theorem f1_score_is_fbeta_1 (actual predicted : list string)
    (positive_label : string) (p r : ideal) :
  length actual = length predicted →
  precision actual predicted positive_label = Ok p →
  recall actual predicted positive_label = Ok r →
  feqb (fadd p r) (of_int 0) = false →
  ∃ v : ideal,
    f1_score actual predicted positive_label = Ok v
    ∧ fbeta_score actual predicted (of_int 1) positive_label = Ok v
    ∧ v = fmul (of_int 2) (fdiv (fmul p r) (fadd p r)).
Proof.
  intros _ Hp Hr Hpr. eexists. rewrite <- f1_score_fbeta_score.
  unfold f1_score. rewrite Hp, Hr. cbn [mbind result_bind].
  unfold py_truediv. rewrite Hpr. done.
Qed.

Lemma f1_score_is_fbeta_1_witness :
  ∃ v : ideal,
    f1_score scenario_actual scenario_predicted "spam" = Ok v
    ∧ fbeta_score scenario_actual scenario_predicted (of_int 1) "spam" = Ok v
    ∧ v = fmul (of_int 2)
            (fdiv (fmul (fdiv (of_int 2) (of_int 2))
                        (fdiv (of_int 2) (of_int 3)))
                  (fadd (fdiv (of_int 2) (of_int 2))
                        (fdiv (of_int 2) (of_int 3)))).
Proof.
  apply (f1_score_is_fbeta_1 scenario_actual scenario_predicted "spam"
           (fdiv (of_int 2) (of_int 2)) (fdiv (of_int 2) (of_int 3)));
    reflexivity.
Defined.

(** Equality of two results that are finite numbers is equality of the
    rationals. *)
Lemma Ok_Fin_eq (a b : Qc) : (a == b)%Q → Ok (Fin a) = Ok (Fin b).
Proof. intros E. do 2 f_equal. by apply Qc_is_canon. Qed.

(** C6: on the scenario the tally is 2 true positives, 1 false negative,
    0 false positives and 1 true negative; precision is 1, recall is 2/3 and
    the F1 score is 4/5. *)
Theorem scenario_tally_and_scores :
  confusion_tally scenario_actual scenario_predicted "spam"
  = {| true_positive := 2; true_negative := 1;
       false_positive := 0; false_negative := 1 |}
  ∧ precision scenario_actual scenario_predicted "spam" = Ok (Fin 1)
  ∧ recall scenario_actual scenario_predicted "spam" = Ok (Fin (Q2Qc (2 # 3)))
  ∧ f1_score scenario_actual scenario_predicted "spam"
    = Ok (Fin (Q2Qc (4 # 5))).
Proof.
  split; [reflexivity|].
  split; [|split]; vm_compute; by apply Ok_Fin_eq.
Qed.

(** The scenario in IEEE-754 binary64 arithmetic: recall is the number
    nearest to 2/3, and the F1 score is the one nearest to 0.8, the value of
    the literal [0.8]. *)
Lemma scenario_scores_binary64 :
  precision (FO:=binary64) scenario_actual scenario_predicted "spam"
  = Ok 1%float
  ∧ recall (FO:=binary64) scenario_actual scenario_predicted "spam"
    = Ok 0x1.5555555555555p-1%float
  ∧ f1_score (FO:=binary64) scenario_actual scenario_predicted "spam"
    = Ok 0x1.999999999999ap-1%float
  ∧ fbeta_score (FO:=binary64) scenario_actual scenario_predicted 1%float
                "spam"
    = Ok 0x1.999999999999ap-1%float.
Proof. repeat split; reflexivity. Qed.

(** The tally modelled from the specification agrees with the three counts
    the scores compute. *)
Lemma tally_counts (actual predicted : list string) (positive_label : string) :
  length actual = length predicted →
  let c := confusion_tally actual predicted positive_label in
  length (filter (λ t, t.1 = t.2 ∧ t.2 = positive_label)
                 (zip actual predicted)) = true_positive c
  ∧ length (filter (λ v, v = positive_label) actual)
    = true_positive c + false_negative c
  ∧ length (filter (λ v, v = positive_label) predicted)
    = true_positive c + false_positive c
  ∧ true_positive c + true_negative c + false_positive c + false_negative c
    = length actual.
Proof.
  revert predicted. induction actual as [|a actual IH];
    intros [|p predicted] Hlen; try done.
  injection Hlen as Hlen. specialize (IH predicted Hlen).
  unfold confusion_tally in *. simpl in *.
  rewrite !filter_cons. simpl.
  destruct IH as (IH1 & IH2 & IH3 & IH4).
  destruct (bool_decide_reflect (a = positive_label)) as [Ha|Ha],
           (bool_decide_reflect (p = positive_label)) as [Hp|Hp];
    simpl; repeat case_decide; destruct_and?; try congruence;
    try (match goal with
         | Hn : ¬ (_ ∧ _) |- _ => exfalso; apply Hn; split; congruence
         end);
    simpl; repeat split; lia.
Qed.

(** ** Accuracy *)

Section accuracy.
Context {M : Type} {C : Classifier M}.

Lemma matches_le (osm : M) (df : list row) : matches osm df ≤ length df.
Proof.
  unfold matches. etrans; [apply length_filter|].
  rewrite length_zip_with, length_fmap. lia.
Qed.

Lemma matches_cons (osm osm' : M) (r : row) (df : list row) (p : string) :
  predict osm (text r) = (p, osm') →
  matches osm (r :: df)
  = (if decide (label r = p) then 1 else 0) + matches osm' df.
Proof.
  intros Hp. unfold matches. simpl. rewrite Hp, filter_cons. simpl.
  by case_decide.
Qed.

Lemma count_correct_spec (osm : M) (df : list row) (correct incorrect : nat) :
  (count_correct osm df correct incorrect).1
  = (correct + matches osm df,
     incorrect + (length df - matches osm df)).
Proof.
  revert osm correct incorrect.
  induction df as [|r df IH]; intros osm correct incorrect.
  - unfold matches. simpl. f_equal; lia.
  - simpl. destruct (predict osm (text r)) as [p osm'] eqn:Hp.
    rewrite (matches_cons osm osm' r df p Hp).
    pose proof (matches_le osm' df) as Hle.
    case_bool_decide; rewrite IH;
      [rewrite decide_True by done|rewrite decide_False by done];
      f_equal; lia.
Qed.

(** The value returned, from the number of matching rows, in any
    arithmetic. *)
Lemma model_accuracy_counts {F : Type} {FO : Float64 F} (osm : M)
    (df : list row) :
  (model_accuracy (F:=F) osm df).1
  = if length df =? 0 then Ok (of_int 100)
    else q ← py_truediv (of_int (Z.of_nat (matches osm df)))
                        (of_int (Z.of_nat (length df)));
         Ok (fmul q (of_int 100)).
Proof.
  unfold model_accuracy.
  pose proof (count_correct_spec osm df 0 0) as E.
  pose proof (matches_le osm df) as Hle.
  destruct (count_correct osm df 0 0) as [[correct incorrect] osm'].
  simpl in E. injection E as -> ->. cbn [fst].
  replace (matches osm df + (length df - matches osm df)) with (length df)
    by lia.
  done.
Qed.

Lemma model_accuracy_matches (osm : M) (df : list row) :
  (model_accuracy (F:=ideal) osm df).1
  = if decide (df = []) then Ok (of_int 100)
    else Ok (Fin (Qc_of_nat (matches osm df) / Qc_of_nat (length df)
                  * Qc_of_Z 100)).
Proof.
  rewrite model_accuracy_counts.
  destruct df as [|r df]; [done|].
  rewrite decide_False by done.
  destruct (Nat.eqb_spec (length (r :: df)) 0) as [E|_]; [done|].
  unfold py_truediv.
  change (feqb (of_int (Z.of_nat ?n)) (of_int 0))
    with (bool_decide (Qc_of_nat n = Qc_of_Z 0)).
  rewrite bool_decide_eq_false_2.
  - cbn [mbind result_bind].
    change (fdiv (of_int (Z.of_nat ?a)) (of_int (Z.of_nat ?b)))
      with (ideal_div (Fin (Qc_of_nat a)) (Fin (Qc_of_nat b))).
    rewrite ideal_div_fin; [done|].
    apply Qc_of_nat_ne_0. simpl. lia.
  - rewrite Z2Qc_inj_0. apply Qc_of_nat_ne_0. simpl. lia.
Qed.
End accuracy.

Lemma matches_tally_pairs (l : list (string * string)) (positive_label : string) :
  Forall (λ t, binary_label t.1 ∧ binary_label t.2) l →
  binary_label positive_label →
  length (filter (λ t, t.1 = t.2) l)
  = length (filter (λ t, bool_decide (t.1 = positive_label) = true
                         ∧ bool_decide (t.2 = positive_label) = true) l)
    + length (filter (λ t, bool_decide (t.1 = positive_label) = false
                           ∧ bool_decide (t.2 = positive_label) = false) l).
Proof.
  intros Hl Hpos. induction Hl as [|[a p] l [Ha Hp] _ IH]; [done|].
  rewrite !filter_cons. simpl in *.
  destruct (bool_decide_reflect (a = positive_label)) as [Ea|Ea],
           (bool_decide_reflect (p = positive_label)) as [Ep|Ep];
    simpl; repeat case_decide; destruct_and?; try congruence;
    try (simpl; lia).
  - destruct Ha as [?|?], Hp as [?|?], Hpos as [?|?]; congruence.
Qed.

Lemma matches_tally {M : Type} {C : Classifier M} (osm : M) (df : list row) :
  let actual := label <$> df in
  let predicted := predict_all osm (text <$> df) in
  let c := confusion_tally actual predicted "spam" in
  Forall binary_label actual → Forall binary_label predicted →
  matches osm df = true_positive c + true_negative c.
Proof.
  intros actual predicted c Ha Hp. unfold matches, c, confusion_tally. simpl.
  apply matches_tally_pairs; [|by left].
  apply Forall_forall. intros [a p] Hin. simpl.
  rewrite Forall_forall in Ha, Hp. split.
  - apply Ha. by apply elem_of_zip_l in Hin.
  - apply Hp. by apply elem_of_zip_r in Hin.
Qed.

Lemma matches_always_spam (df : list row) :
  matches (C:=always_spam) tt df
  = length (filter (λ r, label r = "spam") df).
Proof.
  induction df as [|r df IH]; [done|].
  rewrite (matches_cons (C:=always_spam) tt tt r df "spam") by done.
  rewrite filter_cons, IH. by case_decide.
Qed.

(** C5, as the code has it: [model_accuracy] returns a percentage.  For a
    model and a frame with two-class labels and predictions it returns
    100 * (true positives + true negatives) / total, and the integer 100
    when the frame is empty; for the model that predicts spam on every
    input and a frame of 18000 spam and 2000 legitimate documents it
    returns 90. *)
Theorem model_accuracy_percentage :
  (∀ (M : Type) (C : Classifier M) (osm : M) (df : list row),
     let actual := label <$> df in
     let predicted := predict_all osm (text <$> df) in
     let c := confusion_tally actual predicted "spam" in
     Forall binary_label actual → Forall binary_label predicted →
     (model_accuracy osm df).1
     = if decide (df = []) then Ok (of_int 100)
       else Ok (Fin (Qc_of_nat (true_positive c + true_negative c)
                     / Qc_of_nat (length df) * Qc_of_Z 100)))
  ∧ (∀ df : list row,
       Z.of_nat (length (filter (λ r, label r = "spam") df)) = 18000%Z →
       Z.of_nat (length (filter (λ r, label r = "legitimate") df)) = 2000%Z →
       Z.of_nat (length df) = 20000%Z →
       (model_accuracy (C:=always_spam) tt df).1 = Ok (Fin (Qc_of_Z 90))).
Proof.
  split.
  - intros M C osm df actual predicted c Ha Hp.
    rewrite model_accuracy_matches. case_decide; [done|].
    by rewrite (matches_tally osm df Ha Hp).
  - intros df Hspam _ Hlen. rewrite model_accuracy_matches.
    rewrite decide_False by (by intros ->).
    rewrite matches_always_spam. unfold Qc_of_nat. rewrite Hspam, Hlen.
    apply Ok_Fin_eq. by vm_compute.
Qed.

Lemma length_filter_replicate (P : row → Prop) `{∀ r, Decision (P r)}
    (n : nat) (r : row) :
  length (filter P (replicate n r)) = if decide (P r) then n else 0.
Proof.
  induction n as [|n IH]; [by case_decide|].
  change (replicate (S n) r) with (r :: replicate n r).
  rewrite filter_cons. case_decide; simpl; by rewrite IH.
Qed.

(** A frame of 18000 spam and 2000 legitimate documents. *)
Lemma scenario_frame_counts :
  let df := replicate (Z.to_nat 18000) (Row "spam" "a")
            ++ replicate (Z.to_nat 2000) (Row "legitimate" "b") in
  Z.of_nat (length (filter (λ r, label r = "spam") df)) = 18000%Z
  ∧ Z.of_nat (length (filter (λ r, label r = "legitimate") df)) = 2000%Z
  ∧ Z.of_nat (length df) = 20000%Z.
Proof.
  intros df. unfold df.
  rewrite !filter_app, !length_app, !length_filter_replicate,
    !length_replicate.
  cbn [label]. repeat case_decide; first [lia | done].
Qed.

Lemma model_accuracy_percentage_witness :
  (let df := [Row "spam" "a"; Row "legitimate" "b"] in
   let c := confusion_tally (label <$> df)
              (predict_all (C:=always_spam) tt (text <$> df)) "spam" in
   (model_accuracy (C:=always_spam) tt df).1
   = if decide (df = []) then Ok (of_int 100)
     else Ok (Fin (Qc_of_nat (true_positive c + true_negative c)
                   / Qc_of_nat (length df) * Qc_of_Z 100)))
  ∧ (model_accuracy (C:=always_spam) tt
       (replicate (Z.to_nat 18000) (Row "spam" "a")
        ++ replicate (Z.to_nat 2000) (Row "legitimate" "b"))).1
    = Ok (Fin (Qc_of_Z 90)).
Proof.
  destruct model_accuracy_percentage as [Hgen Hscenario]. split.
  - apply (Hgen unit always_spam tt
             [Row "spam" "a"; Row "legitimate" "b"]).
    + repeat (apply Forall_cons_2; [first [by left|by right]|]).
      apply Forall_nil_2.
    + repeat (apply Forall_cons_2; [by left|]). apply Forall_nil_2.
  - destruct scenario_frame_counts as (Hspam & Hlegit & Hlen).
    by apply Hscenario.
Defined.

(** C5, as stated, fails: the value returned is not the ratio
    (true positives + true negatives) / total.  For the model that predicts
    spam on every input and one spam and one legitimate document, the ratio
    is 1/2 and the value returned is 50. *)
Lemma model_accuracy_not_the_ratio :
  let df := [Row "spam" "a"; Row "legitimate" "b"] in
  let c := confusion_tally (label <$> df)
             (predict_all (C:=always_spam) tt (text <$> df)) "spam" in
  (model_accuracy (C:=always_spam) tt df).1 = Ok (Fin (Qc_of_Z 50))
  ∧ (model_accuracy (C:=always_spam) tt df).1
    ≠ Ok (Fin (Qc_of_nat (true_positive c + true_negative c)
               / Qc_of_nat (length df))).
Proof.
  split.
  - vm_compute. by apply Ok_Fin_eq.
  - intros E. vm_compute in E. discriminate E.
Qed.

(** The accuracy scenario in IEEE-754 binary64 arithmetic: on every frame
    of 18000 spam and 2000 legitimate documents the value is the double
    90.0. *)
Lemma model_accuracy_scenario_binary64 (df : list row) :
  Z.of_nat (length (filter (λ r, label r = "spam") df)) = 18000%Z →
  Z.of_nat (length df) = 20000%Z →
  (model_accuracy (FO:=binary64) (C:=always_spam) tt df).1 = Ok 90%float.
Proof.
  intros Hspam Hlen. rewrite model_accuracy_counts.
  rewrite matches_always_spam, Hspam, Hlen.
  destruct (Nat.eqb_spec (length df) 0); [lia|]. reflexivity.
Qed.

(** ** The memorizing model *)

Section overfitting.
Variable hash : string → Z.

(** What [fit] stores: the hashes of the legitimate texts in one set, the
    hashes of all other texts in the other. *)
Lemma overfitting_fit_sets (m0 : OverfittingSpamModel.t) (df : list row)
    (h : Z) :
  let m := OverfittingSpamModel.fit hash m0 df in
  (h ∈ OverfittingSpamModel.legit m ↔
     h ∈ OverfittingSpamModel.legit m0
     ∨ ∃ r, r ∈ df ∧ label r = "legitimate" ∧ hash (text r) = h)
  ∧ (h ∈ OverfittingSpamModel.spam m ↔
       h ∈ OverfittingSpamModel.spam m0
       ∨ ∃ r, r ∈ df ∧ label r ≠ "legitimate" ∧ hash (text r) = h).
Proof.
  revert m0. induction df as [|r df IH]; intros m0; simpl.
  - split; split; [by left| |by left|]; intros [?|(r & Hr & _)]; try done;
      by apply elem_of_nil in Hr.
  - specialize (IH (if bool_decide (label r = "legitimate")
                    then {| OverfittingSpamModel.legit :=
                              OverfittingSpamModel.legit m0
                              ∪ {[ hash (text r) ]};
                            OverfittingSpamModel.spam :=
                              OverfittingSpamModel.spam m0 |}
                    else {| OverfittingSpamModel.legit :=
                              OverfittingSpamModel.legit m0;
                            OverfittingSpamModel.spam :=
                              OverfittingSpamModel.spam m0
                              ∪ {[ hash (text r) ]} |})).
    simpl in IH. destruct IH as [IHl IHs].
    unfold OverfittingSpamModel.fit. rewrite IHl, IHs.
    case_bool_decide as Hl; simpl; split;
      setoid_rewrite elem_of_cons; set_solver.
Qed.

(** C7: the prediction of a fitted memorizing model.  A text whose hash is
    in the legitimate set is legitimate; otherwise a text whose hash is in
    the spam set is spam; otherwise the text is legitimate when its number
    of characters is even and spam when it is odd.  The model is left as it
    was. *)
Theorem overfitting_predict_cases (m0 : OverfittingSpamModel.t)
    (df : list row) (text : string) :
  let m := OverfittingSpamModel.fit hash m0 df in
  let h := hash text in
  let predicted := (OverfittingSpamModel.predict hash m text).1 in
  (h ∈ OverfittingSpamModel.legit m → predicted = "legitimate")
  ∧ (h ∉ OverfittingSpamModel.legit m → h ∈ OverfittingSpamModel.spam m →
     predicted = "spam")
  ∧ (h ∉ OverfittingSpamModel.legit m → h ∉ OverfittingSpamModel.spam m →
     (Nat.Even (String.length text) → predicted = "legitimate")
     ∧ (Nat.Odd (String.length text) → predicted = "spam"))
  ∧ (OverfittingSpamModel.predict hash m text).2 = m.
Proof.
  intros m h predicted. subst predicted.
  unfold OverfittingSpamModel.predict. fold h.
  destruct (bool_decide_reflect (h ∈ OverfittingSpamModel.legit m)) as [Hl|Hl].
  { repeat split; done. }
  destruct (bool_decide_reflect (h ∈ OverfittingSpamModel.spam m)) as [Hs|Hs].
  { repeat split; done. }
  cbn [fst snd]. repeat split; try done.
  - intros [k Hk].
    pose proof (Nat.div_mod_eq (String.length text) 2) as Hdiv.
    pose proof (Nat.mod_upper_bound (String.length text) 2) as Hlt.
    destruct (Nat.eqb_spec (String.length text `mod` 2) 0); [done|lia].
  - intros [k Hk].
    pose proof (Nat.div_mod_eq (String.length text) 2) as Hdiv.
    destruct (Nat.eqb_spec (String.length text `mod` 2) 0); [lia|done].
Qed.
End overfitting.

Lemma overfitting_predict_cases_witness :
  let hash := λ s : string, Z.of_nat (String.length s) in
  let m := OverfittingSpamModel.fit hash OverfittingSpamModel.init
             [Row "legitimate" "dear"; Row "spam" "buy now"] in
  (OverfittingSpamModel.predict hash m "john").1 = "legitimate"
  ∧ (OverfittingSpamModel.predict hash m "bargain").1 = "spam"
  ∧ (OverfittingSpamModel.predict hash m "hi").1 = "legitimate"
  ∧ (OverfittingSpamModel.predict hash m "hey").1 = "spam".
Proof.
  intros hash m.
  pose proof (λ t, overfitting_predict_cases hash OverfittingSpamModel.init
                     [Row "legitimate" "dear"; Row "spam" "buy now"] t)
    as Hcases.
  split; [|split; [|split]].
  - destruct (Hcases "john") as (Hlegit & _). apply Hlegit.
    apply (bool_decide_eq_true_1 _). vm_compute. reflexivity.
  - destruct (Hcases "bargain") as (_ & Hspam & _). apply Hspam.
    + apply (bool_decide_eq_false_1 _). vm_compute. reflexivity.
    + apply (bool_decide_eq_true_1 _). vm_compute. reflexivity.
  - destruct (Hcases "hi") as (_ & _ & Hparity & _). apply Hparity.
    + apply (bool_decide_eq_false_1 _). vm_compute. reflexivity.
    + apply (bool_decide_eq_false_1 _). vm_compute. reflexivity.
    + exists 1. reflexivity.
  - destruct (Hcases "hey") as (_ & _ & Hparity & _). apply Hparity.
    + apply (bool_decide_eq_false_1 _). vm_compute. reflexivity.
    + apply (bool_decide_eq_false_1 _). vm_compute. reflexivity.
    + exists 1. reflexivity.
Defined.

(** ** The model biased towards spam *)

Section sensitive.
Import SensitiveSpamModel.

Lemma elem_of_insert_desc (x kv : string * nat) (s : list (string * nat)) :
  x ∈ insert_desc kv s ↔ x = kv ∨ x ∈ s.
Proof.
  induction s as [|kv' s IH]; simpl.
  - set_solver.
  - case_match; rewrite ?elem_of_cons, ?IH; set_solver.
Qed.

Lemma elem_of_sorted_desc (x : string * nat) (d : dict) :
  x ∈ sorted_desc d ↔ x ∈ d.
Proof.
  unfold sorted_desc. induction d as [|kv d IH]; simpl; [done|].
  rewrite elem_of_insert_desc, elem_of_cons, IH. done.
Qed.

Lemma length_insert_desc (kv : string * nat) (s : list (string * nat)) :
  length (insert_desc kv s) = S (length s).
Proof. induction s as [|kv' s IH]; simpl; [done|]. case_match; simpl; lia. Qed.

(** The words kept from a dictionary are among its keys. *)
Lemma top_words_keys (n : nat) (d : dict) (w : string) :
  w ∈ (take n (sorted_desc d)).*1 → w ∈ d.*1.
Proof.
  intros Hw. apply list_elem_of_fmap in Hw as (kv & -> & Hkv).
  apply list_elem_of_fmap_2, elem_of_sorted_desc.
  by apply (subseteq_take n).
Qed.

Lemma size_list_to_set_le (l : list string) :
  size (list_to_set l : gset string) ≤ length l.
Proof.
  induction l as [|x l IH].
  - by rewrite list_to_set_nil, size_empty.
  - rewrite list_to_set_cons, size_union_alt, size_singleton.
    assert (size (list_to_set l ∖ {[x]} : gset string)
            ≤ size (list_to_set l : gset string)) as Hle
      by (apply subseteq_size; set_solver).
    simpl. lia.
Qed.

Lemma size_top_words (n : nat) (d : dict) :
  size (list_to_set (take n (sorted_desc d)).*1 : gset string) ≤ n.
Proof.
  etrans; [apply size_list_to_set_le|].
  rewrite length_fmap, length_take. lia.
Qed.

Lemma elem_of_del_keys (k word : string) (d : dict) :
  k ∈ (del word d).*1 ↔ k ∈ d.*1 ∧ k ≠ word.
Proof.
  unfold del. rewrite !list_elem_of_fmap. split.
  - intros ([k' v] & -> & Hin). apply list_elem_of_filter in Hin as [Hne Hin].
    split; [by exists (k', v)|done].
  - intros [([k' v] & -> & Hin) Hne]. exists (k', v). split; [done|].
    by apply list_elem_of_filter.
Qed.

(** The loop that removes the common words: the keys left in either
    dictionary are its keys that are not among the removed words. *)
Lemma elem_of_del_loop (words : list string) (l s : dict) (k : string) :
  let ds := foldl (λ '(legit_words, spam_words) word,
                     (del word legit_words, del word spam_words))
                  (l, s) words in
  (k ∈ ds.1.*1 ↔ k ∈ l.*1 ∧ k ∉ words)
  ∧ (k ∈ ds.2.*1 ↔ k ∈ s.*1 ∧ k ∉ words).
Proof.
  revert l s. induction words as [|w words IH]; intros l s; simpl.
  - set_solver.
  - specialize (IH (del w l) (del w s)). simpl in IH.
    destruct IH as [IH1 IH2]. rewrite IH1, IH2, !elem_of_del_keys.
    rewrite not_elem_of_cons. naive_solver.
Qed.

Lemma elem_of_common_keys (a b : dict) (k : string) :
  k ∈ common_keys a b ↔ k ∈ a.*1 ∧ k ∈ b.*1.
Proof. unfold common_keys. rewrite list_elem_of_filter. naive_solver. Qed.

(** The vocabularies are made of words that one class has and the other has
    not. *)
Lemma fit_vocabularies (self : t) (df : list row) (w : string) :
  let legit_words := (count_rows df).1 in
  let spam_words := (count_rows df).2 in
  (w ∈ legit (fit self df) → w ∈ legit_words.*1 ∧ w ∉ spam_words.*1)
  ∧ (w ∈ spam (fit self df) → w ∈ spam_words.*1 ∧ w ∉ legit_words.*1).
Proof.
  unfold fit. destruct (count_rows df) as [legit_words spam_words]. simpl.
  pose proof (elem_of_del_loop (common_keys legit_words spam_words)
                legit_words spam_words w) as Hloop.
  destruct (foldl _ _ _) as [legit_words' spam_words']. simpl in *.
  destruct Hloop as [Hl Hs]. rewrite elem_of_common_keys in Hl, Hs.
  split; intros Hw; apply elem_of_list_to_set, top_words_keys in Hw.
  - apply Hl in Hw. naive_solver.
  - apply Hs in Hw. naive_solver.
Qed.

(** C9: after [fit] on any frame the two vocabularies are disjoint, no word
    that occurs in both classes is in either of them, the legitimate
    vocabulary has at most 100 words and the spam vocabulary at most 1000;
    [predict] leaves the model as it was. *)
Theorem sensitive_fit_invariant (self : t) (df : list row) :
  let m := fit self df in
  legit m ## spam m
  ∧ (∀ w, w ∈ ((count_rows df).1).*1 → w ∈ ((count_rows df).2).*1 →
          (w ∉ legit m) ∧ (w ∉ spam m))
  ∧ size (legit m) ≤ 100
  ∧ size (spam m) ≤ 1000
  ∧ ∀ text, (predict m text).2 = m.
Proof.
  intros m. split; [|split; [|split; [|split]]].
  - intros w Hl Hs.
    apply (fit_vocabularies self df w) in Hl, Hs. naive_solver.
  - intros w Hl Hs. split; intros Hw;
      apply (fit_vocabularies self df w) in Hw; naive_solver.
  - unfold m, fit. destruct (count_rows df) as [legit_words spam_words].
    destruct (foldl _ _ _) as [legit_words' spam_words']. simpl.
    apply size_top_words.
  - unfold m, fit. destruct (count_rows df) as [legit_words spam_words].
    destruct (foldl _ _ _) as [legit_words' spam_words']. simpl.
    apply size_top_words.
  - intros text. unfold predict. by destruct (foldl _ _ _).
Qed.

Lemma sensitive_fit_invariant_witness :
  let df := [Row "legitimate" "Dear John, dear Mary";
             Row "spam" "Buy now, dear customer"] in
  let m := fit init df in
  "dear" ∈ ((count_rows df).1).*1 ∧ "dear" ∈ ((count_rows df).2).*1
  ∧ ("dear" ∉ legit m) ∧ ("dear" ∉ spam m).
Proof.
  intros df m.
  assert ("dear" ∈ ((count_rows df).1).*1) as Hl
    by (apply (bool_decide_eq_true_1 _); vm_compute; reflexivity).
  assert ("dear" ∈ ((count_rows df).2).*1) as Hs
    by (apply (bool_decide_eq_true_1 _); vm_compute; reflexivity).
  split; [done|]. split; [done|].
  destruct (sensitive_fit_invariant init df) as (_ & Hcommon & _).
  exact (Hcommon "dear" Hl Hs).
Defined.

(** What [predict] computes: the tokens are looked up as they are in the
    text, without lowercasing. *)
Lemma predict_raw_tokens (m : t) (text : string) :
  legit m ## spam m →
  let tokens := re_split_W text in
  let legit_count := length (filter (λ w, w ∈ legit m) tokens) in
  let spam_count := length (filter (λ w, w ∈ spam m) tokens) in
  (predict m text).1
  = if spam_count <? legit_count then "legitimate" else "spam".
Proof.
  intros Hdisj tokens legit_count spam_count. unfold predict. fold tokens.
  assert (∀ a b,
    foldl (score_word m) (a, b) tokens
    = (a + length (filter (λ w, w ∈ legit m) tokens),
       b + length (filter (λ w, w ∈ spam m) tokens))) as Hloop.
  { induction tokens as [|w ws IH]; intros a b; simpl.
    - f_equal; lia.
    - rewrite !filter_cons.
      destruct (bool_decide_reflect (w ∈ legit m)) as [Hl|Hl].
      + rewrite IH, decide_True, (decide_False (P:=w ∈ spam m)) by set_solver.
        simpl. f_equal; lia.
      + rewrite (decide_False (P:=w ∈ legit m)) by done.
        destruct (bool_decide_reflect (w ∈ spam m)) as [Hs|Hs].
        * rewrite IH, decide_True by done. simpl. f_equal; lia.
        * rewrite IH, decide_False by done. done. }
  rewrite (Hloop 0 0). done.
Qed.

(** C8, where the code departs from it: fitted on the one legitimate
    document [hello], the model has the legitimate vocabulary [{hello}] and
    an empty spam vocabulary.  The text [Hello] has the one token [Hello],
    which lowercased is [hello]: counted as the claim says it is legitimate,
    one match against none; [predict] looks up [Hello], finds no match and
    returns spam. *)
Theorem sensitive_predict_skips_lowercase :
  let m := fit init [Row "legitimate" "hello"] in
  legit m = {[ "hello" ]}
  ∧ spam m = ∅
  ∧ re_split_W "Hello" = ["Hello"]
  ∧ lower "Hello" = "hello"
  ∧ predict_spec m "Hello" = "legitimate"
  ∧ (predict m "Hello").1 = "spam".
Proof. vm_compute. repeat split; reflexivity. Qed.
End sensitive.

(** * Further properties *)

(** ** The hashing frequency encoder *)

Section encoder_outcome.
Context {F : Type} {FO : Float64 F}.

Lemma count_terms_outcome (n : nat) (h : string → Z) (ws : list string)
    (res : list F) :
  0 < n → length res = n →
  ∃ res', count_terms n h ws res = Ok res' ∧ length res' = n.
Proof.
  intros Hn. revert res. induction ws as [|t ws IH]; intros res Hres.
  - by exists res.
  - simpl. unfold py_mod.
    destruct (Z.eqb_spec (Z.of_nat n) 0) as [|_]; [lia|]. simpl.
    pose proof (Z.mod_pos_bound (h t) (Z.of_nat n)) as Hb.
    unfold np_iadd. rewrite np_index_in_range by lia. simpl.
    apply IH. by rewrite length_alter.
Qed.

(** X1: the encoder raises only when the vector size is zero and there is
    a word to count, and then it is the modulo that raises
    [ZeroDivisionError]; in every other case it returns a vector of exactly
    [vecsize] entries.  No index is ever out of range. *)
Theorem hashing_frequency_outcome (n : nat) (h : string → Z)
    (input : hf_input) :
  (n = 0 → hf_tokens input ≠ [] →
   hashing_frequency (F:=F) n h input = Raise ZeroDivisionError)
  ∧ (0 < n ∨ hf_tokens input = [] →
     ∃ v : list F, hashing_frequency n h input = Ok v ∧ length v = n).
Proof.
  unfold hashing_frequency, hf. fold (hf_tokens input). split.
  - intros -> Hne. destruct (hf_tokens input) as [|t ws]; done.
  - intros [Hn|Hnil].
    + destruct (count_terms_outcome n h (hf_tokens input) (np_zeros n) Hn)
        as (res & -> & Hres).
      { unfold np_zeros. by rewrite length_replicate. }
      eexists. split; [done|].
      by rewrite normalize_fmap, length_fmap.
    + rewrite Hnil. simpl. eexists. split; [done|].
      unfold np_zeros. by rewrite normalize_fmap, length_fmap, length_replicate.
Qed.

Lemma count_terms_hash_mod (n : nat) (h h' : string → Z) (ws : list string)
    (res : list F) :
  (∀ t, t ∈ ws → (h t `mod` Z.of_nat n = h' t `mod` Z.of_nat n)%Z) →
  count_terms n h ws res = count_terms n h' ws res.
Proof.
  revert res. induction ws as [|t ws IH]; intros res Hh; [done|].
  simpl. unfold py_mod. destruct (Z.of_nat n =? 0)%Z; [done|].
  rewrite (Hh t) by set_solver. simpl.
  destruct (np_iadd _ _ _) as [res'|e]; [|done]. simpl.
  apply IH. intros t' Ht'. apply Hh. set_solver.
Qed.

(** X2: the encoder uses the hash function only through its residues:
    two hash functions that agree modulo the vector size on the words of the
    input give the same result. *)
Theorem hashing_frequency_hash_mod (n : nat) (h h' : string → Z)
    (input : hf_input) :
  (∀ t, t ∈ hf_tokens input →
        (h t `mod` Z.of_nat n = h' t `mod` Z.of_nat n)%Z) →
  hashing_frequency (F:=F) n h input = hashing_frequency n h' input.
Proof.
  intros Hh. unfold hashing_frequency, hf. fold (hf_tokens input).
  by rewrite (count_terms_hash_mod n h h').
Qed.
End encoder_outcome.

Lemma hashing_frequency_outcome_witness :
  hashing_frequency (F:=ideal) 0 (λ _, 5%Z) (Words ["a"])
  = Raise ZeroDivisionError
  ∧ ∃ v : list ideal,
      hashing_frequency 3 (λ _, 5%Z) (Str "a b") = Ok v ∧ length v = 3.
Proof.
  split.
  - by apply (hashing_frequency_outcome 0 (λ _, 5%Z) (Words ["a"])).
  - apply (hashing_frequency_outcome 3 (λ _, 5%Z) (Str "a b")). left. lia.
Defined.

Lemma hashing_frequency_hash_mod_witness :
  hashing_frequency (F:=ideal) 4 (λ t, Z.of_nat (String.length t))
                    (Words ["ab"; "abcdef"])
  = hashing_frequency 4 (λ t, (Z.of_nat (String.length t) - 8)%Z)
                      (Words ["ab"; "abcdef"]).
Proof.
  apply (hashing_frequency_hash_mod 4 (λ t, Z.of_nat (String.length t))
           (λ t, (Z.of_nat (String.length t) - 8)%Z)
           (Words ["ab"; "abcdef"])).
  intros t Ht. simpl in Ht.
  change (Z.of_nat 4) with 4%Z.
  rewrite <- (Z.mod_add (Z.of_nat (String.length t) - 8) 2 4) by done.
  f_equal. lia.
Defined.

Lemma bucket_count_permutation (n : nat) (h : string → Z)
    (ws ws' : list string) (i : nat) :
  ws ≡ₚ ws' → bucket_count n h ws i = bucket_count n h ws' i.
Proof. intros Hp. unfold bucket_count. by rewrite Hp. Qed.

Lemma bucket_count_app (n : nat) (h : string → Z) (ws ws' : list string)
    (i : nat) :
  bucket_count n h (ws ++ ws') i
  = bucket_count n h ws i + bucket_count n h ws' i.
Proof. unfold bucket_count. by rewrite filter_app, length_app. Qed.

Lemma hashing_frequency_zero_size {F : Type} {FO : Float64 F}
    (h : string → Z) (t : string) (ws : list string) :
  hashing_frequency (F:=F) 0 h (Words (t :: ws)) = Raise ZeroDivisionError.
Proof. reflexivity. Qed.

(** X3: the encoder does not depend on the order of the words: two lists
    with the same words, each as often, give the same result. *)
Theorem hashing_frequency_permutation (n : nat) (h : string → Z)
    (ws ws' : list string) :
  ws ≡ₚ ws' →
  hashing_frequency (F:=ideal) n h (Words ws)
  = hashing_frequency n h (Words ws').
Proof.
  intros Hp. destruct ws as [|t ws].
  { apply Permutation_nil_l in Hp. by subst. }
  destruct ws' as [|t' ws'].
  { by apply Permutation_nil_r in Hp. }
  destruct n as [|n]; [by rewrite !hashing_frequency_zero_size|].
  rewrite !hashing_frequency_words by (done || lia).
  f_equal. apply list_fmap_ext. intros k i _.
  by rewrite (bucket_count_permutation _ _ _ _ _ Hp), Hp.
Qed.

Lemma hashing_frequency_permutation_witness :
  hashing_frequency (F:=ideal) 4 (λ t, Z.of_nat (String.length t))
                    (Words ["the"; "quick"; "fox"])
  = hashing_frequency 4 (λ t, Z.of_nat (String.length t))
                      (Words ["fox"; "the"; "quick"]).
Proof.
  apply (hashing_frequency_permutation 4 (λ t, Z.of_nat (String.length t))
           ["the"; "quick"; "fox"] ["fox"; "the"; "quick"]).
  symmetry. apply (Permutation_cons_append ["the"; "quick"] "fox").
Defined.

Lemma Qc_double_fraction (a b : nat) :
  0 < b →
  (Qc_of_nat (a + a) / Qc_of_nat (b + b) = Qc_of_nat a / Qc_of_nat b)%Qc.
Proof.
  intros Hb. pose proof (Qc_of_nat_ne_0 b Hb) as Hb0.
  assert (Qc_of_nat b + Qc_of_nat b ≠ 0)%Qc as Hbb.
  { rewrite <- Qc_of_nat_add. apply Qc_of_nat_ne_0. lia. }
  rewrite !Qc_of_nat_add. field. by split.
Qed.

(** X4: the encoder gives frequencies, not counts: a list of words
    repeated twice gives the same result as the list itself. *)
Theorem hashing_frequency_repeat (n : nat) (h : string → Z)
    (ws : list string) :
  hashing_frequency (F:=ideal) n h (Words (ws ++ ws))
  = hashing_frequency n h (Words ws).
Proof.
  destruct ws as [|t ws]; [done|].
  destruct n as [|n]; [done|].
  rewrite !hashing_frequency_words by (done || lia).
  f_equal. apply list_fmap_ext. intros k i _. f_equal.
  rewrite bucket_count_app, length_app. apply Qc_double_fraction.
  simpl. lia.
Qed.


(** The vectors of the closed form are normalized histograms. *)
Lemma histogram_normalized (n : nat) (h : string → Z) (ws : list string) :
  0 < n → ws ≠ [] →
  let v := (λ i, Fin (Qc_of_nat (bucket_count n h ws i)
                      / Qc_of_nat (length ws))) <$> seq 0 n in
  length v = n ∧ (∀ x, x ∈ v → nonneg x) ∧ py_sum v = Fin 1.
Proof.
  intros Hn Hws v.
  assert (0 < length ws) as Hlen by (destruct ws; [done|simpl; lia]).
  split; [by unfold v; rewrite length_fmap, length_seq|]. split.
  - intros x Hx. apply list_elem_of_fmap in Hx as (i & -> & _).
    eexists. split; [done|].
    apply Qc_div_nonneg; [apply Qc_of_nat_nonneg|by apply Qc_of_nat_pos].
  - unfold py_sum, v.
    pose proof (foldl_add_fractions (bucket_count n h ws)
                  (Qc_of_nat (length ws)) (seq 0 n) 0) as E.
    rewrite sum_bucket_count in E by done. simpl in E.
    replace (Qc_of_nat 0 / Qc_of_nat (length ws))%Qc with (Qc_of_Z 0) in E.
    + simpl. rewrite E. f_equal. unfold Qcdiv.
      apply Qcmult_inv_r. by apply Qc_of_nat_ne_0.
    + unfold Qcdiv, Qc_of_nat. change (Z.of_nat 0) with 0%Z.
      by rewrite Z2Qc_inj_0, Qcmult_0_l.
Qed.

(** X5: a string input always has a word to count, be it the empty word
    of the empty string: for a vector size above zero the result is a
    normalized histogram, with finite non-negative entries of sum 1, and
    never the vector of NaN. *)
Theorem hashing_frequency_string (n : nat) (h : string → Z) (s : string) :
  0 < n →
  ∃ v : list ideal,
    hashing_frequency n h (Str s) = Ok v
    ∧ length v = n
    ∧ (∀ x, x ∈ v → nonneg x)
    ∧ py_sum v = Fin 1.
Proof.
  intros Hn.
  pose proof (hashing_frequency_words n h (split_space s) Hn
                (split_space_nonempty s)) as E.
  eexists. split; [exact E|].
  by apply histogram_normalized, split_space_nonempty.
Qed.

Lemma hashing_frequency_string_witness :
  ∃ v : list ideal,
    hashing_frequency 4 (λ t, Z.of_nat (String.length t)) (Str "  ") = Ok v
    ∧ length v = 4
    ∧ (∀ x, x ∈ v → nonneg x)
    ∧ py_sum v = Fin 1.
Proof.
  apply (hashing_frequency_string 4 (λ t, Z.of_nat (String.length t)) "  ").
  lia.
Defined.

(** ** Shingles *)

Lemma length_substring (s : string) (n m : nat) :
  String.length (substring n m s) = Nat.min m (String.length s - n).
Proof.
  revert n m.
  induction s as [|c s IH]; intros [|n] [|m]; simpl;
    rewrite ?IH, ?Nat.sub_0_r; done.
Qed.

Lemma py_slice_inside (doc : string) (i k : nat) :
  i + k ≤ String.length doc →
  py_slice doc (Z.of_nat i) (Z.of_nat i + Z.of_nat k) = substring i k doc.
Proof.
  intros Hik. unfold py_slice.
  destruct (Z.ltb_spec (Z.of_nat i) 0); [lia|].
  destruct (Z.ltb_spec (Z.of_nat i + Z.of_nat k) 0); [lia|].
  f_equal; lia.
Qed.

Lemma kshingles_lookup (k : nat) (doc : string) (i : nat) :
  i + k ≤ String.length doc →
  kshingles (Z.of_nat k) doc !! i = Some (substring i k doc).
Proof.
  intros Hik. unfold kshingles, py_range.
  rewrite !list_lookup_fmap, lookup_seq_lt by lia. simpl.
  by rewrite py_slice_inside.
Qed.

Lemma kshingles_size (k : Z) (doc : string) :
  length (kshingles k doc)
  = Z.to_nat (Z.of_nat (String.length doc) - k + 1).
Proof. unfold kshingles, py_range. by rewrite !length_fmap, length_seq. Qed.

(** X6: a document shorter than [k] has no shingle.  For [0 <= k <=
    len(doc)] there are [len(doc) - k + 1] shingles, and shingle [i] is the
    [k] characters of the document from position [i] on, so every shingle has
    exactly [k] characters. *)
Theorem doc2shingles_spec (k : nat) (doc : string) :
  (String.length doc < k → doc2shingles (Z.of_nat k) doc = [])
  ∧ (k ≤ String.length doc →
     length (doc2shingles (Z.of_nat k) doc) = String.length doc - k + 1
     ∧ ∀ i s, doc2shingles (Z.of_nat k) doc !! i = Some s →
              s = substring i k doc ∧ String.length s = k).
Proof.
  unfold doc2shingles. split.
  - intros Hlt. apply length_zero_iff_nil. rewrite kshingles_size. lia.
  - intros Hle. split; [rewrite kshingles_size; lia|].
    intros i s Hs.
    assert (i < String.length doc - k + 1) as Hi.
    { apply lookup_lt_Some in Hs. rewrite kshingles_size in Hs. lia. }
    rewrite kshingles_lookup in Hs by lia. injection Hs as <-.
    split; [done|]. rewrite length_substring. lia.
Qed.

Lemma doc2shingles_spec_witness :
  doc2shingles (Z.of_nat 4) "fox" = []
  ∧ length (doc2shingles (Z.of_nat 4) "the fox") = String.length "the fox" - 4 + 1
  ∧ ∀ i s, doc2shingles (Z.of_nat 4) "the fox" !! i = Some s →
           s = substring i 4 "the fox" ∧ String.length s = 4.
Proof.
  split.
  - apply (doc2shingles_spec 4 "fox"). simpl. lia.
  - apply (doc2shingles_spec 4 "the fox"). simpl. lia.
Defined.

(** X7: the two steps of notebook 01 together.  A document shorter than
    the shingle length has no shingle, and the encoder turns it into a vector
    of NaN; a document of at least [k] characters is turned, for a vector
    size above zero, into a normalized histogram. *)
Theorem shingles_hashing_frequency (k n : nat) (h : string → Z)
    (doc : string) :
  (String.length doc < k →
   hashing_frequency n h (Words (doc2shingles (Z.of_nat k) doc))
   = Ok (replicate n NaN))
  ∧ (k ≤ String.length doc → 0 < n →
     ∃ v : list ideal,
       hashing_frequency n h (Words (doc2shingles (Z.of_nat k) doc)) = Ok v
       ∧ length v = n
       ∧ (∀ x, x ∈ v → nonneg x)
       ∧ py_sum v = Fin 1).
Proof.
  split.
  - intros Hlt.
    assert (doc2shingles (Z.of_nat k) doc = []) as ->.
    { apply length_zero_iff_nil. unfold doc2shingles.
      rewrite kshingles_size. lia. }
    unfold hashing_frequency, hf. simpl. rewrite normalize_fmap.
    rewrite count_vec_zeros, py_sum_count_vec.
    replace (sum_list_with (λ _, 0) (seq 0 n)) with 0
      by (induction (seq 0 n); simpl; congruence).
    rewrite <- count_vec_zeros. unfold np_zeros.
    by rewrite fmap_replicate.
  - intros Hle Hn.
    assert (doc2shingles (Z.of_nat k) doc ≠ []) as Hne.
    { intros E. apply (f_equal length) in E. unfold doc2shingles in E.
      rewrite kshingles_size in E. simpl in E. lia. }
    eexists. split; [by apply hashing_frequency_words|].
    by apply histogram_normalized.
Qed.

Lemma shingles_hashing_frequency_witness :
  hashing_frequency 8 (λ t, Z.of_nat (String.length t))
                    (Words (doc2shingles (Z.of_nat 4) "fox"))
  = Ok (replicate 8 NaN)
  ∧ ∃ v : list ideal,
      hashing_frequency 8 (λ t, Z.of_nat (String.length t))
                        (Words (doc2shingles (Z.of_nat 4) "the fox")) = Ok v
      ∧ length v = 8
      ∧ (∀ x, x ∈ v → nonneg x)
      ∧ py_sum v = Fin 1.
Proof.
  split.
  - apply (shingles_hashing_frequency 4 8 (λ t, Z.of_nat (String.length t))
             "fox"). simpl. lia.
  - apply (shingles_hashing_frequency 4 8 (λ t, Z.of_nat (String.length t))
             "the fox"); simpl; lia.
Defined.

Lemma substring_empty (a b : nat) : substring a b "" = "".
Proof. by destruct a, b. Qed.

Lemma substring_prefix (s : string) (a b k : nat) :
  a + b ≤ k → substring a b (substring 0 k s) = substring a b s.
Proof.
  revert a b k. induction s as [|c s IH]; intros a b k Hk.
  - by rewrite !substring_empty.
  - destruct k as [|k].
    + assert (a = 0) as -> by lia. assert (b = 0) as -> by lia. done.
    + destruct a as [|a]; simpl.
      * destruct b as [|b]; [done|]. simpl. rewrite IH by lia. done.
      * apply IH. lia.
Qed.

Lemma substring_substring (s : string) (i k a b : nat) :
  a + b ≤ k → substring a b (substring i k s) = substring (i + a) b s.
Proof.
  revert s. induction i as [|i IH]; intros s Hk.
  - by apply substring_prefix.
  - destruct s as [|c s]; [by rewrite !substring_empty|].
    simpl. destruct k; by apply IH.
Qed.

Lemma substring_split (s : string) (a m1 m2 : nat) :
  substring a (m1 + m2) s = substring a m1 s +:+ substring (a + m1) m2 s.
Proof.
  revert a m1. induction s as [|c s IH]; intros a m1.
  - by rewrite !substring_empty.
  - destruct a as [|a].
    + destruct m1 as [|m1]; simpl.
      * by destruct m2.
      * change (String c ?x +:+ ?y) with (String c (x +:+ y)).
        f_equal. apply (IH 0).
    + simpl. apply IH.
Qed.

Lemma substring_zero (s : string) (a : nat) : substring a 0 s = "".
Proof.
  revert a. induction s as [|c s IH]; intros [|a]; simpl; try done.
Qed.

Lemma substring_all (s : string) : substring 0 (String.length s) s = s.
Proof. induction s as [|c s IH]; simpl; [done|]. by rewrite IH. Qed.

Lemma join_chars (s : string) (a m : nat) :
  foldr String.append "" ((λ j, substring j 1 s) <$> seq a m)
  = substring a m s.
Proof.
  revert a. induction m as [|m IH]; intros a; simpl.
  - by rewrite substring_zero.
  - rewrite IH. change (S m) with (1 + m).
    rewrite (substring_split s a 1 m). by rewrite Nat.add_1_r.
Qed.

Lemma kshingles_substrings (k : nat) (doc : string) :
  k ≤ String.length doc →
  kshingles (Z.of_nat k) doc
  = (λ i, substring i k doc) <$> seq 0 (String.length doc - k + 1).
Proof.
  intros Hk. apply list_eq. intros i.
  destruct (decide (i < String.length doc - k + 1)) as [Hi|Hi].
  - rewrite kshingles_lookup by lia.
    by rewrite list_lookup_fmap, lookup_seq_lt.
  - rewrite !lookup_ge_None_2; [done| |].
    + rewrite length_fmap, length_seq. lia.
    + rewrite kshingles_size. lia.
Qed.

(** X8: shingling loses nothing.  For [1 <= k <= len(doc)] the document
    is the first shingle followed by the last character of each of the
    others. *)
Theorem unshingle_doc2shingles (k : nat) (doc : string) :
  1 ≤ k → k ≤ String.length doc →
  unshingle (doc2shingles (Z.of_nat k) doc) = doc.
Proof.
  intros Hk1 Hk. unfold doc2shingles. rewrite kshingles_substrings by done.
  rewrite Nat.add_1_r. simpl. rewrite <- list_fmap_compose.
  rewrite (list_fmap_ext _ ((λ j, substring j 1 doc) ∘ (λ i, i + k - 1))
             (seq 1 (String.length doc - k))).
  - rewrite list_fmap_compose.
    assert ((λ i, i + k - 1) <$> seq 1 (String.length doc - k)
            = seq k (String.length doc - k)) as ->.
    { apply list_eq. intros i. rewrite list_lookup_fmap.
      destruct (decide (i < String.length doc - k)) as [Hi|Hi].
      - rewrite !lookup_seq_lt by done. simpl. f_equal. lia.
      - rewrite !lookup_seq_ge by lia. done. }
    rewrite join_chars.
    pose proof (substring_split doc 0 k (String.length doc - k)) as E.
    simpl in E. rewrite <- E.
    replace (k + (String.length doc - k)) with (String.length doc) by lia.
    apply substring_all.
  - intros i j Hj. apply lookup_seq in Hj as [-> Hj]. simpl.
    unfold last_char. rewrite length_substring.
    replace (Nat.min k (String.length doc - (1 + i))) with k by lia.
    rewrite substring_substring by lia. f_equal. lia.
Qed.

Lemma unshingle_doc2shingles_witness :
  unshingle (doc2shingles (Z.of_nat 4) "the quick fox") = "the quick fox".
Proof.
  apply (unshingle_doc2shingles 4 "the quick fox"); simpl; lia.
Defined.

(** ** Word-length features *)

Lemma length_bucket_le (MAX_LEN : nat) (w : string) :
  length_bucket MAX_LEN w ≤ MAX_LEN.
Proof. unfold length_bucket. lia. Qed.

Lemma length_count_cons (MAX_LEN : nat) (w : string) (ws : list string)
    (i : nat) :
  length_count MAX_LEN (w :: ws) i
  = (if decide (length_bucket MAX_LEN w = i) then 1 else 0)
    + length_count MAX_LEN ws i.
Proof. unfold length_count. rewrite filter_cons. by case_decide. Qed.

Lemma count_frequency_loop_spec (MAX_LEN : nat) (ws : list string)
    (cnt : nat → nat) :
  count_frequency_loop MAX_LEN ws (count_vec cnt (MAX_LEN + 1))
  = Ok (count_vec (λ i, cnt i + length_count MAX_LEN ws i) (MAX_LEN + 1)).
Proof.
  revert cnt. induction ws as [|w ws IH]; intros cnt.
  - simpl. f_equal. apply count_vec_ext. intros i _.
    unfold length_count. simpl. lia.
  - simpl. unfold np_iadd. rewrite np_index_in_range; last first.
    { unfold count_vec. rewrite length_fmap, length_seq. lia. }
    simpl. rewrite Nat2Z.id, count_vec_incr, IH. f_equal.
    apply count_vec_ext. intros i _. rewrite length_count_cons.
    unfold length_bucket. repeat case_decide; lia.
Qed.

Lemma sum_length_count (MAX_LEN : nat) (ws : list string) :
  sum_list_with (length_count MAX_LEN ws) (seq 0 (MAX_LEN + 1)) = length ws.
Proof.
  induction ws as [|w ws IH].
  - unfold length_count. simpl. induction (seq 0 (MAX_LEN + 1)); simpl; lia.
  - rewrite (sum_list_with_ext_seq _
      (λ i, (if decide (length_bucket MAX_LEN w = i) then 1 else 0)
            + length_count MAX_LEN ws i)).
    + rewrite sum_list_with_add, sum_indicator, IH.
      pose proof (length_bucket_le MAX_LEN w).
      rewrite decide_True by lia. done.
    + intros i. by rewrite length_count_cons.
Qed.

Lemma re_split_W_nonempty (s : string) : re_split_W s ≠ [].
Proof.
  induction s as [|c s IH]; [done|]. simpl.
  destruct (is_word_char c).
  - by destruct (re_split_W s).
  - by destruct (starts_with_W s).
Qed.

(** X9: [count_frequency] never raises.  It returns [MAX_LEN + 1]
    entries; entry [i] is the number of words [re.split] gives whose length,
    capped at [MAX_LEN], is [i], so the last entry counts every word of
    [MAX_LEN] characters or more; the entries sum to the number of words,
    which is at least 1. *)
Theorem count_frequency_histogram (txt : string) (MAX_LEN : nat) :
  let words := re_split_W txt in
  ∃ v : list ideal,
    count_frequency txt MAX_LEN = Ok v
    ∧ length v = MAX_LEN + 1
    ∧ (∀ i, i ≤ MAX_LEN →
         v !! i = Some (Fin (Qc_of_nat
                    (length (filter (λ w, Nat.min (String.length w) MAX_LEN = i)
                                    words)))))
    ∧ py_sum v = Fin (Qc_of_nat (length words))
    ∧ 1 ≤ length words.
Proof.
  intros words. unfold count_frequency.
  rewrite count_vec_zeros, count_frequency_loop_spec. fold words.
  eexists. split; [done|].
  split; [by unfold count_vec; rewrite length_fmap, length_seq|].
  split; [|split].
  - intros i Hi. unfold count_vec.
    by rewrite list_lookup_fmap, lookup_seq_lt by lia.
  - rewrite py_sum_count_vec.
    rewrite (sum_list_with_ext_seq _ (length_count MAX_LEN words)) by done.
    by rewrite sum_length_count.
  - pose proof (re_split_W_nonempty txt). unfold words.
    destruct (re_split_W txt); [done|simpl; lia].
Qed.

Lemma re_split_W_head_word (c : ascii) (s : string) :
  is_word_char c = true →
  ∃ w ws, re_split_W (String c s) = String c w :: ws.
Proof.
  intros Hc. simpl. rewrite Hc.
  destruct (re_split_W s) as [|w ws]; eauto.
Qed.

Lemma re_split_W_head_empty (s : string) :
  starts_with_W s = true → ∃ ws, re_split_W s = "" :: ws.
Proof.
  induction s as [|c s IH]; [done|]. simpl. intros Hc.
  apply negb_true_iff in Hc. rewrite Hc.
  destruct (starts_with_W s); [by apply IH|eauto].
Qed.

(** [re.split] leaves an empty word only at the two ends. *)
Lemma re_split_W_empty_positions (s : string) (i : nat) :
  re_split_W s !! i = Some "" → i = 0 ∨ S i = length (re_split_W s).
Proof.
  revert i. induction s as [|c s IH]; intros i.
  { destruct i; [by left|done]. }
  simpl. destruct (is_word_char c) eqn:Hc.
  - pose proof (re_split_W_nonempty s) as Hne.
    destruct (re_split_W s) as [|w ws]; [done|].
    destruct i as [|i]; [by left|]. simpl. intros Hi.
    destruct (IH (S i) Hi) as [|E]; [done|]. right. simpl in E. by rewrite E.
  - destruct (starts_with_W s) eqn:Hs; [apply IH|].
    destruct i as [|i]; [by left|]. simpl. intros Hi. right. f_equal.
    destruct (IH i Hi) as [->|E]; [|done].
    destruct s as [|c' s]; [done|].
    simpl in Hs. apply negb_false_iff in Hs.
    destruct (re_split_W_head_word c' s Hs) as (w & ws & E).
    rewrite E in Hi. done.
Qed.

Lemma filter_only_last {A : Type} (P : A → Prop) `{∀ x, Decision (P x)}
    (l : list A) :
  (∀ i x, l !! i = Some x → P x → S i = length l) →
  length (filter P l) ≤ 1.
Proof.
  induction l as [|a l IH]; intros Hpos; [simpl; lia|].
  rewrite filter_cons. destruct l as [|b l].
  - case_decide; simpl; lia.
  - rewrite decide_False.
    + apply IH. intros i x Hi Hx.
      specialize (Hpos (S i) x Hi Hx). simpl in *. lia.
    + intros Ha. specialize (Hpos 0 a eq_refl Ha). done.
Qed.

Lemma filter_only_ends {A : Type} (P : A → Prop) `{∀ x, Decision (P x)}
    (l : list A) :
  (∀ i x, l !! i = Some x → P x → i = 0 ∨ S i = length l) →
  length (filter P l) ≤ 2.
Proof.
  destruct l as [|a l]; intros Hpos; [simpl; lia|].
  rewrite filter_cons.
  assert (length (filter P l) ≤ 1) as Hl.
  { apply filter_only_last. intros i x Hi Hx.
    destruct (Hpos (S i) x Hi Hx) as [|E]; [done|]. simpl in E. lia. }
  case_decide; simpl; lia.
Qed.

Lemma re_split_W_empty_words (s : string) :
  length (filter (λ w, w = "") (re_split_W s)) ≤ 2.
Proof.
  apply filter_only_ends. intros i x Hi ->.
  by apply re_split_W_empty_positions.
Qed.

(** X10: with [MAX_LEN >= 1], entry 0 of [count_frequency] counts the
    empty words, which [re.split] leaves only at the two ends of the text:
    it is at most 2, and at least 1 when the text is empty or starts with a
    character that is not a word character. *)
Theorem count_frequency_empty_words (txt : string) (MAX_LEN : nat) :
  1 ≤ MAX_LEN →
  let empty_words := length (filter (λ w, w = "") (re_split_W txt)) in
  ∃ v : list ideal,
    count_frequency txt MAX_LEN = Ok v
    ∧ v !! 0 = Some (Fin (Qc_of_nat empty_words))
    ∧ empty_words ≤ 2
    ∧ (txt = "" ∨ starts_with_W txt = true → 1 ≤ empty_words).
Proof.
  intros HM empty_words. unfold count_frequency.
  rewrite count_vec_zeros, count_frequency_loop_spec.
  eexists. split; [done|]. split; [|split].
  - unfold count_vec. rewrite list_lookup_fmap, lookup_seq_lt by lia.
    simpl. do 3 f_equal. unfold length_count, empty_words.
    f_equal. apply list_filter_iff. intros w. unfold length_bucket.
    destruct w as [|c w]; (split; [|done]); intros Hw; [done|].
    change (String.length (String c w)) with (S (String.length w)) in Hw.
    lia.
  - apply re_split_W_empty_words.
  - unfold empty_words. intros [->|Hs]; [simpl; lia|].
    destruct (re_split_W_head_empty txt Hs) as (ws & ->).
    rewrite filter_cons, decide_True by done. simpl. lia.
Qed.

Lemma count_frequency_empty_words_witness :
  let empty_words := length (filter (λ w, w = "") (re_split_W "!")) in
  ∃ v : list ideal,
    count_frequency "!" 7 = Ok v
    ∧ v !! 0 = Some (Fin (Qc_of_nat empty_words))
    ∧ empty_words ≤ 2
    ∧ ("!" = "" ∨ starts_with_W "!" = true → 1 ≤ empty_words).
Proof. apply (count_frequency_empty_words "!" 7). lia. Defined.

Section existence.
Context {F : Type} {FO : Float64 F}.

Lemma exist_vec_ext (p q : nat → bool) (n : nat) :
  (∀ i, i < n → p i = q i) → exist_vec (F:=F) p n = exist_vec q n.
Proof.
  intros Hpq. apply list_fmap_ext. intros k i Hi.
  apply lookup_seq in Hi as [-> Hi]. by rewrite Hpq.
Qed.

Lemma exist_vec_zeros (n : nat) : np_zeros n = exist_vec (F:=F) (λ _, false) n.
Proof.
  unfold np_zeros, exist_vec. apply list_eq. intros i.
  rewrite list_lookup_fmap.
  destruct (decide (i < n)) as [Hi|Hi].
  - by rewrite lookup_replicate_2, lookup_seq_lt.
  - rewrite (proj1 (lookup_replicate_None _ _ _)), lookup_seq_ge by lia. done.
Qed.

Lemma exist_vec_mark (p : nat → bool) (n j : nat) :
  <[j := of_int 1]> (exist_vec (F:=F) p n)
  = exist_vec (λ i, p i || bool_decide (j = i)) n.
Proof.
  unfold exist_vec. apply list_eq. intros i.
  destruct (decide (j = i)) as [->|Hne].
  - destruct (decide (i < n)) as [Hi|Hi].
    + rewrite list_lookup_insert_eq by (by rewrite length_fmap, length_seq).
      rewrite list_lookup_fmap, lookup_seq_lt by done. simpl.
      by rewrite bool_decide_eq_true_2, orb_true_r.
    + rewrite list_insert_ge by (rewrite length_fmap, length_seq; lia).
      by rewrite !list_lookup_fmap, lookup_seq_ge by lia.
  - rewrite list_lookup_insert_ne, !list_lookup_fmap by done.
    destruct (seq 0 n !! i) as [k|] eqn:Hk; [|done]. simpl.
    apply lookup_seq in Hk as [-> _].
    by rewrite bool_decide_eq_false_2, orb_false_r.
Qed.

Lemma count_existence_loop_spec (MAX_LEN : nat) (ws : list string)
    (p : nat → bool) :
  count_existence_loop MAX_LEN ws (exist_vec (F:=F) p (MAX_LEN + 1))
  = Ok (exist_vec
          (λ i, p i || bool_decide (0 < length_count MAX_LEN ws i))
          (MAX_LEN + 1)).
Proof.
  revert p. induction ws as [|w ws IH]; intros p.
  - simpl. f_equal. apply exist_vec_ext. intros i _.
    unfold length_count. simpl. by rewrite orb_false_r.
  - simpl. unfold np_setitem. rewrite np_index_in_range; last first.
    { unfold exist_vec. rewrite length_fmap, length_seq. lia. }
    simpl. rewrite Nat2Z.id, exist_vec_mark, IH. f_equal.
    apply exist_vec_ext. intros i _. rewrite length_count_cons.
    fold (length_bucket MAX_LEN w).
    destruct (p i); simpl; [done|].
    repeat case_bool_decide; repeat case_decide; simpl; try done; lia.
Qed.

Lemma length_count_pos (MAX_LEN : nat) (ws : list string) (i : nat) :
  0 < length_count MAX_LEN ws i
  ↔ ∃ w, w ∈ ws ∧ Nat.min (String.length w) MAX_LEN = i.
Proof.
  unfold length_count. split.
  - intros Hpos.
    destruct (filter _ ws) as [|w l] eqn:E; [simpl in Hpos; lia|].
    assert (w ∈ filter (λ w, length_bucket MAX_LEN w = i) ws) as Hw
      by (rewrite E; left).
    apply list_elem_of_filter in Hw as [Hb Hw]. by exists w.
  - intros (w & Hw & Hb).
    assert (w ∈ filter (λ w, length_bucket MAX_LEN w = i) ws) as Hin
      by (by apply list_elem_of_filter).
    revert Hin. destruct (filter _ ws); [by inversion 1|simpl; lia].
Qed.

(** X11: [count_existence] never raises.  It returns [MAX_LEN + 1]
    entries; entry [i] is 1 when some word [re.split] gives has the length
    [i], capped at [MAX_LEN], and 0 when none has; since there is always a
    word, some entry is 1. *)
Theorem count_existence_marks (txt : string) (MAX_LEN : nat) :
  let words := re_split_W txt in
  ∃ v : list F,
    count_existence txt MAX_LEN = Ok v
    ∧ length v = MAX_LEN + 1
    ∧ (∀ w, w ∈ words →
         v !! Nat.min (String.length w) MAX_LEN = Some (of_int 1))
    ∧ (∀ i, i ≤ MAX_LEN →
         (∀ w, w ∈ words → Nat.min (String.length w) MAX_LEN ≠ i) →
         v !! i = Some (of_int 0))
    ∧ ∃ i, v !! i = Some (of_int 1).
Proof.
  intros words. unfold count_existence.
  rewrite exist_vec_zeros, count_existence_loop_spec. fold words.
  eexists. split; [done|].
  split; [by unfold exist_vec; rewrite length_fmap, length_seq|].
  assert (∀ w, w ∈ words →
    exist_vec (F:=F)
      (λ i, false || bool_decide (0 < length_count MAX_LEN words i))
      (MAX_LEN + 1) !! Nat.min (String.length w) MAX_LEN
    = Some (of_int 1)) as Hmark.
  { intros w Hw. unfold exist_vec.
    rewrite list_lookup_fmap, lookup_seq_lt by lia. simpl.
    rewrite bool_decide_eq_true_2; [done|].
    apply length_count_pos. by exists w. }
  split; [done|]. split.
  - intros i Hi Hnone. unfold exist_vec.
    rewrite list_lookup_fmap, lookup_seq_lt by lia. simpl.
    rewrite bool_decide_eq_false_2; [done|].
    rewrite length_count_pos. intros (w & Hw & Hb). by apply (Hnone w).
  - pose proof (re_split_W_nonempty txt) as Hne. fold words in Hne.
    destruct words as [|w ws] eqn:E; [done|].
    eexists. apply (Hmark w). left.
Qed.
End existence.

(** X12: the two word-length features agree on which lengths occur: an
    entry of [count_existence] is 1 exactly where the entry of
    [count_frequency] is not 0. *)
Theorem count_existence_count_frequency (txt : string) (MAX_LEN : nat) :
  ∃ vf ve : list ideal,
    count_frequency txt MAX_LEN = Ok vf
    ∧ count_existence txt MAX_LEN = Ok ve
    ∧ length vf = length ve
    ∧ ∀ i, i ≤ MAX_LEN →
        (ve !! i = Some (of_int 1) ↔ vf !! i ≠ Some (of_int 0)).
Proof.
  unfold count_existence.
  rewrite exist_vec_zeros, count_existence_loop_spec.
  unfold count_frequency.
  rewrite count_vec_zeros, count_frequency_loop_spec.
  eexists _, _. split; [done|]. split; [done|].
  split; [by unfold count_vec, exist_vec; rewrite !length_fmap|].
  intros i Hi. unfold count_vec, exist_vec.
  rewrite !list_lookup_fmap, !lookup_seq_lt by lia. simpl.
  set (c := length_count MAX_LEN (re_split_W txt) i).
  case_bool_decide as Hc; split.
  - intros _ [= E]. lia.
  - done.
  - intros [= E].
  - intros Hne. exfalso. apply Hne. assert (c = 0) as -> by lia. done.
Qed.

(** ** The F-scores, continued *)

Lemma n_true_positives_le (actual predicted : list string)
    (positive_label : string) :
  n_true_positives actual predicted positive_label
  ≤ n_positives predicted positive_label
  ∧ n_true_positives actual predicted positive_label
    ≤ n_positives actual positive_label.
Proof.
  unfold n_true_positives, n_positives. revert predicted.
  induction actual as [|a actual IH]; intros [|p predicted];
    try (simpl; lia).
  specialize (IH predicted). simpl. rewrite !filter_cons. simpl.
  repeat case_decide; destruct_and?; simplify_eq/=; lia.
Qed.

Lemma n_true_positives_swap (actual predicted : list string)
    (positive_label : string) :
  n_true_positives actual predicted positive_label
  = n_true_positives predicted actual positive_label.
Proof.
  unfold n_true_positives. revert predicted.
  induction actual as [|a actual IH]; intros [|p predicted]; try done.
  specialize (IH predicted). simpl. rewrite !filter_cons. simpl.
  repeat case_decide; destruct_and?; simplify_eq/=; try lia;
    exfalso; naive_solver.
Qed.

Lemma n_true_positives_self (values : list string) (positive_label : string) :
  n_true_positives values values positive_label
  = n_positives values positive_label.
Proof.
  unfold n_true_positives, n_positives.
  induction values as [|a values IH]; [done|].
  simpl. rewrite !filter_cons. simpl.
  repeat case_decide; destruct_and?; simplify_eq/=; try lia;
    exfalso; naive_solver.
Qed.

Lemma py_truediv_ideal (a b : nat) :
  py_truediv (F:=ideal) (of_int (Z.of_nat a)) (of_int (Z.of_nat b))
  = if decide (b = 0) then Raise ZeroDivisionError
    else Ok (Fin (Qc_of_nat a / Qc_of_nat b)).
Proof.
  unfold py_truediv.
  change (feqb (of_int (Z.of_nat b)) (of_int 0))
    with (bool_decide (Qc_of_nat b = Qc_of_Z 0)).
  case_decide as Hb.
  - subst b. by rewrite bool_decide_eq_true_2.
  - rewrite bool_decide_eq_false_2.
    + change (fdiv (of_int (Z.of_nat a)) (of_int (Z.of_nat b)))
        with (ideal_div (Fin (Qc_of_nat a)) (Fin (Qc_of_nat b))).
      rewrite ideal_div_fin; [done|]. apply Qc_of_nat_ne_0. lia.
    + rewrite Z2Qc_inj_0. apply Qc_of_nat_ne_0. lia.
Qed.

Lemma precision_ideal (actual predicted : list string) (pos : string) :
  precision (F:=ideal) actual predicted pos
  = if decide (n_positives predicted pos = 0) then Raise ZeroDivisionError
    else Ok (Fin (Qc_of_nat (n_true_positives actual predicted pos)
                  / Qc_of_nat (n_positives predicted pos))).
Proof. apply py_truediv_ideal. Qed.

Lemma recall_ideal (actual predicted : list string) (pos : string) :
  recall (F:=ideal) actual predicted pos
  = if decide (n_positives actual pos = 0) then Raise ZeroDivisionError
    else Ok (Fin (Qc_of_nat (n_true_positives actual predicted pos)
                  / Qc_of_nat (n_positives actual pos))).
Proof. apply py_truediv_ideal. Qed.

Lemma Qc_zero_div (d : Qc) : (Qc_of_nat 0 / d = 0)%Qc.
Proof.
  unfold Qcdiv, Qc_of_nat. change (Z.of_nat 0) with 0%Z.
  by rewrite Z2Qc_inj_0, Qcmult_0_l.
Qed.

Lemma py_truediv_zero_ideal (x : ideal) :
  py_truediv x (Fin 0) = Raise ZeroDivisionError.
Proof.
  unfold py_truediv.
  change (feqb (Fin 0) (of_int 0)) with (bool_decide (0%Qc = Qc_of_Z 0)).
  rewrite bool_decide_eq_true_2; [done|]. symmetry. apply Z2Qc_inj_0.
Qed.

(** Without a true positive both scores raise, for every finite [beta]. *)
Lemma scores_no_true_positive (actual predicted : list string)
    (pos : string) :
  n_true_positives actual predicted pos = 0 →
  f1_score (F:=ideal) actual predicted pos = Raise ZeroDivisionError
  ∧ ∀ b : Qc, fbeta_score actual predicted (Fin b) pos
              = Raise ZeroDivisionError.
Proof.
  intros Htp. unfold f1_score, fbeta_score.
  rewrite precision_ideal, recall_ideal, Htp.
  destruct (decide (n_positives predicted pos = 0)); [by split|].
  destruct (decide (n_positives actual pos = 0)); [by split|].
  cbn [mbind result_bind]. rewrite !Qc_zero_div. split.
  - replace (fadd (Fin 0) (Fin 0)) with (Fin 0)
      by (simpl; by rewrite Qcplus_0_l).
    by rewrite py_truediv_zero_ideal.
  - intros b.
    replace (fadd (fmul (fmul (Fin b) (Fin b)) (Fin 0)) (Fin 0))
      with (Fin 0) by (simpl; by rewrite Qcmult_0_r, Qcplus_0_l).
    by rewrite py_truediv_zero_ideal.
Qed.

(** *** The scores in binary64 *)

Section scores_binary64.
#[local] Existing Instance binary64.

Lemma shr_1_nonneg (mrs : shr_record) :
  (0 ≤ shr_m mrs)%Z → (0 ≤ shr_m (shr_1 mrs))%Z.
Proof. destruct mrs as [[|[p|p|]|p] r s]; simpl; lia. Qed.

Lemma iter_pos_shr_1_nonneg (p : positive) (mrs : shr_record) :
  (0 ≤ shr_m mrs)%Z → (0 ≤ shr_m (SpecFloat.iter_pos shr_1 p mrs))%Z.
Proof.
  revert mrs. induction p as [p IH|p IH|]; intros mrs Hm; simpl.
  - apply IH, IH. by apply shr_1_nonneg.
  - by apply IH, IH.
  - by apply shr_1_nonneg.
Qed.

Lemma shr_fexp_nonneg (m e : Z) (l : location) :
  (0 ≤ m)%Z → (0 ≤ shr_m (shr_fexp prec emax m e l).1)%Z.
Proof.
  intros Hm. unfold shr_fexp, shr.
  assert (0 ≤ shr_m (shr_record_of_loc m l))%Z as H0
    by (destruct l as [|[]]; simpl; lia).
  destruct (_ - e)%Z; simpl; try done. by apply iter_pos_shr_1_nonneg.
Qed.

Lemma round_nearest_even_nonneg (m : Z) (l : location) :
  (0 ≤ m)%Z → (0 ≤ round_nearest_even m l)%Z.
Proof.
  intros Hm. destruct l as [|[]]; simpl; try lia. destruct (Z.even m); lia.
Qed.

Lemma binary_round_aux_not_nan (sx : bool) (m e : Z) (l : location) :
  (0 ≤ m)%Z → binary_round_aux prec emax sx m e l ≠ S754_nan.
Proof.
  intros Hm. unfold binary_round_aux.
  pose proof (shr_fexp_nonneg m e l Hm) as H1.
  destruct (shr_fexp prec emax m e l) as [mrs' e']. simpl in H1.
  pose proof (shr_fexp_nonneg _ e' loc_Exact
                (round_nearest_even_nonneg _ (loc_of_shr_record mrs') H1))
    as H2.
  destruct (shr_fexp prec emax _ e' loc_Exact) as [mrs'' e'']. simpl in H2.
  destruct (shr_m mrs'') as [|p|p]; [done| |lia].
  by destruct (e'' <=? emax - prec)%Z.
Qed.

Lemma of_uint63_not_nan (n : int) : Prim2SF (of_uint63 n) ≠ S754_nan.
Proof.
  rewrite FloatAxioms.of_uint63_spec. pose proof (to_Z_bounded n) as Hn.
  unfold binary_normalize. destruct (to_Z n) as [|p|p]; [done| |lia].
  unfold binary_round. destruct (shl_align _ _ _) as [mz ez].
  by apply binary_round_aux_not_nan.
Qed.

(** [float(n)] of a count is a number. *)
Lemma float_of_nat_not_nan (n : nat) :
  Prim2SF (of_int (Z.of_nat n)) ≠ S754_nan.
Proof.
  simpl. unfold float_of_Z.
  destruct (Z.ltb_spec (Z.of_nat n) 0); [lia|]. apply of_uint63_not_nan.
Qed.

Lemma float_zero_eqb (x : float) :
  float_zero x → feqb x (of_int 0) = true.
Proof.
  intros [s Hx]. simpl. rewrite FloatAxioms.eqb_spec, Hx. reflexivity.
Qed.

Lemma py_truediv_float_zero (x z : float) :
  float_zero z → py_truediv x z = Raise ZeroDivisionError.
Proof. intros Hz. unfold py_truediv. by rewrite float_zero_eqb. Qed.

(** [0.0 / float(n)] for a count [n]: the division raises for [n = 0], and
    gives a zero otherwise. *)
Lemma py_truediv_zero_by_count (n : nat) :
  py_truediv (of_int 0) (of_int (Z.of_nat n))
  = Raise ZeroDivisionError
  ∨ ∃ z, py_truediv (of_int 0) (of_int (Z.of_nat n)) = Ok z
         ∧ float_zero z.
Proof.
  pose proof (float_of_nat_not_nan n) as Hnan.
  unfold py_truediv. destruct (feqb _ _) eqn:E; [by left|]. right.
  eexists. split; [done|].
  simpl in *. rewrite FloatAxioms.eqb_spec in E. unfold float_zero.
  rewrite FloatAxioms.div_spec.
  change (Prim2SF (float_of_Z 0)) with (S754_zero false) in *.
  destruct (Prim2SF (float_of_Z (Z.of_nat n))) as [s|s| |s m e];
    try done; simpl; eauto.
Qed.

Lemma float_zero_mul (x y : float) :
  float_zero x → float_zero y → float_zero (x * y)%float.
Proof.
  intros [sx Hx] [sy Hy]. unfold float_zero.
  rewrite FloatAxioms.mul_spec, Hx, Hy. simpl. eauto.
Qed.

Lemma float_zero_add (x y : float) :
  float_zero x → float_zero y → float_zero (x + y)%float.
Proof.
  intros [sx Hx] [sy Hy]. unfold float_zero.
  rewrite FloatAxioms.add_spec, Hx, Hy. destruct sx, sy; simpl; eauto.
Qed.

Lemma float_finite_mul_zero (x y : float) :
  is_finite x = true → float_zero y → float_zero (x * y)%float.
Proof.
  intros Hfin [sy Hy]. unfold float_zero.
  unfold is_finite, is_nan, is_infinity in Hfin.
  rewrite !FloatAxioms.eqb_spec, FloatAxioms.abs_spec in Hfin.
  change (Prim2SF infinity) with (S754_infinity false) in Hfin.
  rewrite FloatAxioms.mul_spec, Hy.
  destruct (Prim2SF x) as [s|[]| |s m e]; simpl; eauto;
    compute in Hfin; discriminate.
Qed.

(** Without a true positive both scores raise in binary64 too, for every
    [beta] with a finite square. *)
Lemma scores_no_true_positive_binary64 (actual predicted : list string)
    (pos : string) :
  n_true_positives actual predicted pos = 0 →
  f1_score actual predicted pos = Raise ZeroDivisionError
  ∧ ∀ beta : float,
      is_finite (beta * beta) = true →
      fbeta_score actual predicted beta pos
      = Raise ZeroDivisionError.
Proof.
  intros Htp. unfold f1_score, fbeta_score, precision, recall.
  unfold true_positives, predicted_positives, actual_positives.
  change (length (filter _ (zip actual predicted)))
    with (n_true_positives actual predicted pos).
  rewrite Htp. change (Z.of_nat 0) with 0%Z.
  destruct (py_truediv_zero_by_count
              (length (filter (λ v, v = pos) predicted)))
    as [->|(p & -> & Hp)]; [done|].
  destruct (py_truediv_zero_by_count
              (length (filter (λ v, v = pos) actual)))
    as [->|(r & -> & Hr)]; [done|].
  cbn [mbind result_bind]. split.
  - rewrite py_truediv_float_zero; [done|]. by apply float_zero_add.
  - intros beta Hfin. rewrite py_truediv_float_zero; [done|].
    apply float_zero_add; [|done]. by apply float_finite_mul_zero.
Qed.

(** The condition on [beta] is needed: the square of [2^600] overflows to
    infinity, infinity times the precision 0.0 is NaN, and a division by NaN
    does not raise. *)
Lemma fbeta_score_overflow_binary64 :
  is_finite (0x1p+600 * 0x1p+600)%float = false
  ∧ fbeta_score ["spam"; "legitimate"] ["legitimate"; "spam"]
      0x1p+600%float "spam"
    = Ok nan.
Proof. split; reflexivity. Qed.
End scores_binary64.

(** X13: the scores need a true positive.  When no position has the
    positive label in both sequences, [f1_score] raises
    [ZeroDivisionError], and so does [fbeta_score] for every [beta] whose
    square is finite, also when both sequences do contain the positive
    label: precision and recall are then both 0 and the last division is by
    0.0.  This holds in binary64, for every float [beta] with
    [beta * beta] finite, and in exact arithmetic, for every rational
    [beta]. *)
Theorem scores_raise_without_true_positive (actual predicted : list string)
    (positive_label : string) :
  n_true_positives actual predicted positive_label = 0 →
  (f1_score (FO:=binary64) actual predicted positive_label
   = Raise ZeroDivisionError
   ∧ ∀ beta : float,
       is_finite (beta * beta) = true →
       fbeta_score (FO:=binary64) actual predicted beta positive_label
       = Raise ZeroDivisionError)
  ∧ (f1_score (F:=ideal) actual predicted positive_label
     = Raise ZeroDivisionError
     ∧ ∀ b : Qc, fbeta_score actual predicted (Fin b) positive_label
                 = Raise ZeroDivisionError).
Proof.
  intros Htp. split.
  - by apply scores_no_true_positive_binary64.
  - by apply scores_no_true_positive.
Qed.

Lemma scores_raise_without_true_positive_witness :
  precision (F:=ideal) ["spam"; "legitimate"] ["legitimate"; "spam"] "spam"
  = Ok (Fin 0)
  ∧ recall (F:=ideal) ["spam"; "legitimate"] ["legitimate"; "spam"] "spam"
    = Ok (Fin 0)
  ∧ (f1_score (FO:=binary64) ["spam"; "legitimate"] ["legitimate"; "spam"]
       "spam"
     = Raise ZeroDivisionError
     ∧ ∀ beta : float,
         is_finite (beta * beta) = true →
         fbeta_score (FO:=binary64) ["spam"; "legitimate"]
           ["legitimate"; "spam"] beta "spam"
         = Raise ZeroDivisionError)
  ∧ (f1_score (F:=ideal) ["spam"; "legitimate"] ["legitimate"; "spam"]
       "spam"
     = Raise ZeroDivisionError
     ∧ ∀ b : Qc,
         fbeta_score ["spam"; "legitimate"] ["legitimate"; "spam"] (Fin b)
                     "spam"
         = Raise ZeroDivisionError).
Proof.
  split; [vm_compute; by apply Ok_Fin_eq|].
  split; [vm_compute; by apply Ok_Fin_eq|].
  by apply (scores_raise_without_true_positive ["spam"; "legitimate"]
              ["legitimate"; "spam"] "spam").
Defined.

Lemma py_truediv_fin (a d : Qc) :
  d ≠ 0%Qc → py_truediv (Fin a) (Fin d) = Ok (Fin (a / d)).
Proof.
  intros Hd. unfold py_truediv.
  change (feqb (Fin d) (of_int 0)) with (bool_decide (d = Qc_of_Z 0)).
  rewrite bool_decide_eq_false_2 by (by rewrite Z2Qc_inj_0).
  change (fdiv (Fin a) (Fin d)) with (ideal_div (Fin a) (Fin d)).
  by rewrite ideal_div_fin.
Qed.

Lemma Qc_div_pos (a d : Qc) : (0 < a → 0 < d → 0 < a / d)%Qc.
Proof. intros Ha Hd. unfold Qcdiv. by apply Qcmult_pos_pos, Qcinv_pos. Qed.

Lemma Qc_square_nonneg (b : Qc) : (0 ≤ b * b)%Qc.
Proof.
  destruct (Qclt_le_dec b 0) as [Hb|Hb].
  - rewrite <- (Qcopp_involutive (b * b)).
    replace (- - (b * b))%Qc with ((- b) * (- b))%Qc by ring.
    assert (0 ≤ - b)%Qc as Hnb.
    { apply Qclt_le_weak, Qcopp_le_compat in Hb.
      by replace (- 0)%Qc with 0%Qc in Hb by (by apply Qc_is_canon). }
    by apply Qcmult_nonneg_nonneg.
  - by apply Qcmult_nonneg_nonneg.
Qed.

Lemma Qc_pos_ne_0 (a : Qc) : (0 < a)%Qc → a ≠ 0%Qc.
Proof. intros Ha E. rewrite E in Ha. by apply Qclt_not_eq in Ha. Qed.

(** The value of [fbeta_score] when there is a true positive. *)
Lemma fbeta_score_closed_form (actual predicted : list string)
    (pos : string) (b : Qc) :
  0 < n_true_positives actual predicted pos →
  fbeta_score actual predicted (Fin b) pos
  = Ok (Fin ((1 + b * b) * Qc_of_nat (n_true_positives actual predicted pos)
             / (b * b * Qc_of_nat (n_positives actual pos)
                + Qc_of_nat (n_positives predicted pos)))).
Proof.
  intros Htp.
  destruct (n_true_positives_le actual predicted pos) as [Hpp Hap].
  pose proof (Qc_of_nat_pos _ Htp) as HT.
  assert (0 < Qc_of_nat (n_positives predicted pos))%Qc as HP
    by (apply Qc_of_nat_pos; lia).
  assert (0 < Qc_of_nat (n_positives actual pos))%Qc as HA
    by (apply Qc_of_nat_pos; lia).
  pose proof (Qc_square_nonneg b) as Hbb.
  unfold fbeta_score. rewrite precision_ideal, recall_ideal.
  rewrite !decide_False by lia. cbn [mbind result_bind].
  set (T := Qc_of_nat (n_true_positives actual predicted pos)) in *.
  set (P := Qc_of_nat (n_positives predicted pos)) in *.
  set (A := Qc_of_nat (n_positives actual pos)) in *.
  change (fadd (fmul (fmul (Fin b) (Fin b)) (Fin (T / P))) (Fin (T / A)))
    with (Fin (b * b * (T / P) + T / A)).
  change (fmul (Fin (T / P)) (Fin (T / A))) with (Fin (T / P * (T / A))).
  assert (0 < b * b * (T / P) + T / A)%Qc as Hden.
  { apply Qcplus_nonneg_pos; [|by apply Qc_div_pos].
    apply Qcmult_nonneg_nonneg; [done|].
    by apply Qclt_le_weak, Qc_div_pos. }
  assert (0 < b * b * A + P)%Qc as Hden'.
  { apply Qcplus_nonneg_pos; [|done].
    apply Qcmult_nonneg_nonneg; [done|by apply Qclt_le_weak]. }
  rewrite py_truediv_fin by (by apply Qc_pos_ne_0).
  cbn [mbind result_bind].
  change (fmul (fadd (of_int 1) (fmul (Fin b) (Fin b))) (Fin ?q))
    with (Fin ((Qc_of_Z 1 + b * b) * q)).
  rewrite Z2Qc_inj_1. do 2 f_equal.
  apply Qc_pos_ne_0 in HT, HP, HA, Hden, Hden'.
  field. repeat split; try done.
  intros E.
  replace (b * b * T * A + T * P)%Qc with (T * (b * b * A + P))%Qc in E
    by ring.
  by apply Qcmult_integral in E as [E|E].
Qed.

Lemma f1_score_closed_form (actual predicted : list string) (pos : string) :
  0 < n_true_positives actual predicted pos →
  f1_score (F:=ideal) actual predicted pos
  = Ok (Fin (Qc_of_nat (2 * n_true_positives actual predicted pos)
             / Qc_of_nat (n_positives predicted pos
                          + n_positives actual pos))).
Proof.
  intros Htp. rewrite f1_score_fbeta_score.
  change (of_int (F:=ideal) 1) with (Fin (Qc_of_Z 1)).
  rewrite fbeta_score_closed_form by done. do 2 f_equal.
  destruct (n_true_positives_le actual predicted pos) as [Hpp Hap].
  assert (Qc_of_nat (n_positives predicted pos + n_positives actual pos)
          ≠ 0%Qc) as Hden by (apply Qc_of_nat_ne_0; lia).
  replace (2 * n_true_positives actual predicted pos)
    with (n_true_positives actual predicted pos
          + n_true_positives actual predicted pos) by lia.
  rewrite !Qc_of_nat_add in *. rewrite Z2Qc_inj_1.
  field. done.
Qed.

Lemma Qc_div_le_1 (x y : Qc) : (0 < y → x ≤ y → x / y ≤ 1)%Qc.
Proof.
  intros Hy Hxy. rewrite <- (Qcmult_inv_r y) by (by apply Qc_pos_ne_0).
  unfold Qcdiv. apply Qcmult_le_mono_nonneg_r; [|done].
  by apply Qclt_le_weak, Qcinv_pos.
Qed.

Lemma Qc_div_eq_1 (x y : Qc) : y ≠ 0%Qc → (x / y = 1)%Qc ↔ x = y.
Proof.
  intros Hy. split.
  - intros E. rewrite <- (Qcmult_div_r x y Hy), E. by rewrite Qcmult_1_r.
  - intros ->. unfold Qcdiv. by apply Qcmult_inv_r.
Qed.

Lemma Qc_of_nat_inj (a b : nat) : Qc_of_nat a = Qc_of_nat b ↔ a = b.
Proof. unfold Qc_of_nat. rewrite Z2Qc_inj_iff. lia. Qed.

Lemma Qc_of_nat_le (a b : nat) : a ≤ b → (Qc_of_nat a ≤ Qc_of_nat b)%Qc.
Proof. intros Hab. unfold Qc_of_nat. rewrite <- Z2Qc_inj_le. lia. Qed.

(** X14: with a true positive, [f1_score] returns
    2 * true positives / (predicted positives + actual positives); the value
    is above 0 and at most 1, and it is 1 exactly when every predicted
    positive and every actual positive is a true positive. *)
Theorem f1_score_value (actual predicted : list string)
    (positive_label : string) :
  let tp := n_true_positives actual predicted positive_label in
  let pp := n_positives predicted positive_label in
  let ap := n_positives actual positive_label in
  0 < tp →
  ∃ q : Qc,
    f1_score actual predicted positive_label = Ok (Fin q)
    ∧ q = (Qc_of_nat (2 * tp) / Qc_of_nat (pp + ap))%Qc
    ∧ (0 < q)%Qc ∧ (q ≤ 1)%Qc
    ∧ (q = 1%Qc ↔ pp = tp ∧ ap = tp).
Proof.
  intros tp pp ap Htp.
  destruct (n_true_positives_le actual predicted positive_label)
    as [Hpp Hap]. fold tp pp ap in Hpp, Hap.
  eexists. split; [by apply f1_score_closed_form|]. fold tp pp ap.
  split; [done|].
  assert (0 < Qc_of_nat (pp + ap))%Qc as Hden by (apply Qc_of_nat_pos; lia).
  split; [|split].
  - apply Qc_div_pos; [apply Qc_of_nat_pos; lia|done].
  - apply Qc_div_le_1; [done|]. apply Qc_of_nat_le. lia.
  - rewrite Qc_div_eq_1 by (by apply Qc_pos_ne_0).
    rewrite Qc_of_nat_inj. lia.
Qed.

Lemma f1_score_value_witness :
  ∃ q : Qc,
    f1_score scenario_actual scenario_predicted "spam" = Ok (Fin q)
    ∧ q = (Qc_of_nat
             (2 * n_true_positives scenario_actual scenario_predicted "spam")
           / Qc_of_nat (n_positives scenario_predicted "spam"
                        + n_positives scenario_actual "spam"))%Qc
    ∧ (0 < q)%Qc ∧ (q ≤ 1)%Qc
    ∧ (q = 1%Qc ↔
       n_positives scenario_predicted "spam"
       = n_true_positives scenario_actual scenario_predicted "spam"
       ∧ n_positives scenario_actual "spam"
         = n_true_positives scenario_actual scenario_predicted "spam").
Proof.
  apply (f1_score_value scenario_actual scenario_predicted "spam").
  vm_compute. lia.
Defined.

(** X15: with a true positive, [fbeta_score] with a finite [beta] returns
    (1 + beta^2) * true positives
    / (beta^2 * actual positives + predicted positives),
    and with [beta = 0] it returns the precision. *)
Theorem fbeta_score_value (actual predicted : list string)
    (positive_label : string) :
  let tp := n_true_positives actual predicted positive_label in
  let pp := n_positives predicted positive_label in
  let ap := n_positives actual positive_label in
  0 < tp →
  (∀ b : Qc,
     fbeta_score actual predicted (Fin b) positive_label
     = Ok (Fin ((1 + b * b) * Qc_of_nat tp
                / (b * b * Qc_of_nat ap + Qc_of_nat pp))))
  ∧ fbeta_score actual predicted (of_int 0) positive_label
    = precision actual predicted positive_label.
Proof.
  intros tp pp ap Htp. split.
  - intros b. by apply fbeta_score_closed_form.
  - destruct (n_true_positives_le actual predicted positive_label)
      as [Hpp Hap]. fold tp pp ap in Hpp, Hap.
    change (of_int (F:=ideal) 0) with (Fin (Qc_of_Z 0)).
    rewrite fbeta_score_closed_form, precision_ideal by done.
    fold tp pp ap. rewrite decide_False by lia. do 2 f_equal.
    rewrite Z2Qc_inj_0.
    replace (0 * 0 * Qc_of_nat ap + Qc_of_nat pp)%Qc with (Qc_of_nat pp)
      by ring.
    by replace ((1 + 0 * 0) * Qc_of_nat tp)%Qc with (Qc_of_nat tp) by ring.
Qed.

Lemma fbeta_score_value_witness :
  (∀ b : Qc,
     fbeta_score scenario_actual scenario_predicted (Fin b) "spam"
     = Ok (Fin ((1 + b * b)
                * Qc_of_nat (n_true_positives scenario_actual
                               scenario_predicted "spam")
                / (b * b * Qc_of_nat (n_positives scenario_actual "spam")
                   + Qc_of_nat (n_positives scenario_predicted "spam")))))
  ∧ fbeta_score scenario_actual scenario_predicted (of_int 0) "spam"
    = precision scenario_actual scenario_predicted "spam".
Proof.
  apply (fbeta_score_value scenario_actual scenario_predicted "spam").
  vm_compute. lia.
Defined.

(** X16: [f1_score] treats its two sequences alike: with the observed and
    the predicted labels exchanged it gives the same result, a number or an
    exception. *)
Theorem f1_score_symmetric (actual predicted : list string)
    (positive_label : string) :
  f1_score (F:=ideal) actual predicted positive_label
  = f1_score predicted actual positive_label.
Proof.
  destruct (decide (n_true_positives actual predicted positive_label = 0))
    as [Hz|Hnz].
  - destruct (scores_no_true_positive actual predicted positive_label Hz)
      as [-> _].
    rewrite n_true_positives_swap in Hz.
    by destruct (scores_no_true_positive predicted actual positive_label Hz)
      as [-> _].
  - rewrite !f1_score_closed_form
      by first [lia | rewrite n_true_positives_swap; lia].
    rewrite (n_true_positives_swap predicted actual).
    by rewrite (Nat.add_comm (n_positives actual positive_label)).
Qed.

(** X17: a prediction that repeats the observed labels, among them the
    positive label, scores 1 with [f1_score] and with [fbeta_score] for every
    finite [beta]. *)
Theorem scores_perfect_prediction (values : list string)
    (positive_label : string) :
  positive_label ∈ values →
  f1_score values values positive_label = Ok (Fin 1)
  ∧ ∀ b : Qc, fbeta_score values values (Fin b) positive_label = Ok (Fin 1).
Proof.
  intros Hin.
  assert (0 < n_positives values positive_label) as Hpos.
  { unfold n_positives.
    assert (positive_label ∈ filter (λ v, v = positive_label) values) as Hf
      by (by apply list_elem_of_filter).
    revert Hf. destruct (filter _ values); [by inversion 1|simpl; lia]. }
  pose proof (n_true_positives_self values positive_label) as Htp.
  assert (∀ b : Qc,
    fbeta_score values values (Fin b) positive_label = Ok (Fin 1)) as Hb.
  { intros b. rewrite fbeta_score_closed_form by lia. rewrite Htp.
    do 2 f_equal. apply Qc_div_eq_1; [|ring].
    apply Qc_pos_ne_0, Qcplus_nonneg_pos; [|by apply Qc_of_nat_pos].
    apply Qcmult_nonneg_nonneg;
      [apply Qc_square_nonneg|apply Qc_of_nat_nonneg]. }
  split; [|done]. rewrite f1_score_fbeta_score. apply Hb.
Qed.

Lemma scores_perfect_prediction_witness :
  f1_score scenario_actual scenario_actual "spam" = Ok (Fin 1)
  ∧ ∀ b : Qc,
      fbeta_score scenario_actual scenario_actual (Fin b) "spam"
      = Ok (Fin 1).
Proof.
  apply (scores_perfect_prediction scenario_actual "spam"). left.
Defined.

(** ** Accuracy, continued *)

Lemma predict_all_length {M : Type} {C : Classifier M} (model : M)
    (texts : list string) :
  length (predict_all model texts) = length texts.
Proof.
  revert model. induction texts as [|txt texts IH]; intros model; [done|].
  simpl. destruct (predict model txt) as [p model']. simpl. by rewrite IH.
Qed.

(** X18: [true_and_predicted] gives two sequences as long as the frame,
    and [model_accuracy] never raises: it returns 100 times the share of the
    positions where the two sequences agree, a number from 0 to 100, which,
    for a frame that is not empty, is 100 exactly when they agree everywhere
    and 0 exactly when they agree nowhere. *)
Theorem model_accuracy_range {M : Type} {C : Classifier M} (osm : M)
    (df : list row) :
  let actual := (true_and_predicted df osm).1 in
  let predicted := (true_and_predicted df osm).2 in
  let agree := length (filter (λ t, t.1 = t.2) (zip actual predicted)) in
  length actual = length df
  ∧ length predicted = length df
  ∧ ∃ q : Qc,
      (model_accuracy osm df).1 = Ok (Fin q)
      ∧ (0 ≤ q)%Qc ∧ (q ≤ Qc_of_Z 100)%Qc
      ∧ (df ≠ [] →
         q = (Qc_of_nat agree / Qc_of_nat (length df) * Qc_of_Z 100)%Qc
         ∧ (q = Qc_of_Z 100 ↔ agree = length df)
         ∧ (q = 0%Qc ↔ agree = 0)).
Proof.
  intros actual predicted agree.
  split; [by unfold actual; simpl; rewrite length_fmap|].
  split; [by unfold predicted; simpl; rewrite predict_all_length,
             length_fmap|].
  change agree with (matches osm df).
  pose proof (matches_le osm df) as Hle.
  rewrite model_accuracy_matches.
  assert (0 < Qc_of_Z 100)%Qc as H100
    by (rewrite <- Z2Qc_inj_0, <- Z2Qc_inj_lt; lia).
  destruct df as [|r df].
  { exists (Qc_of_Z 100). split; [done|].
    split; [by apply Qclt_le_weak|]. split; [apply Qcle_refl|done]. }
  rewrite decide_False by done.
  set (m := matches osm (r :: df)) in *. set (n := length (r :: df)) in *.
  assert (0 < n) as Hn by (unfold n; simpl; lia).
  pose proof (Qc_of_nat_pos n Hn) as HN.
  eexists. split; [done|].
  assert (0 ≤ Qc_of_nat m / Qc_of_nat n)%Qc as H0
    by (apply Qc_div_nonneg; [apply Qc_of_nat_nonneg|done]).
  assert (Qc_of_nat m / Qc_of_nat n ≤ 1)%Qc as H1
    by (apply Qc_div_le_1; [done|by apply Qc_of_nat_le]).
  split; [apply Qcmult_nonneg_nonneg; [done|by apply Qclt_le_weak]|].
  split.
  { rewrite <- (Qcmult_1_l (Qc_of_Z 100)) at 2.
    apply Qcmult_le_mono_nonneg_r; [by apply Qclt_le_weak|done]. }
  intros _. split; [done|]. split.
  - rewrite <- (Qc_of_nat_inj m n).
    rewrite <- (Qc_div_eq_1 _ _ (Qc_pos_ne_0 _ HN)). split.
    + intros E. rewrite <- (Qcmult_1_l (Qc_of_Z 100)) in E at 2.
      apply (Qcmult_le_mono_pos_r _ _ _ H100) in H1 as Hle1.
      apply (anti_symm Qcle); [done|].
      apply (Qcmult_le_mono_pos_r _ _ (Qc_of_Z 100)); [done|].
      rewrite E. apply Qcle_refl.
    + intros ->. by rewrite Qcmult_1_l.
  - split.
    + intros E. apply Qcmult_integral in E as [E|E];
        [|by apply Qc_pos_ne_0 in H100].
      unfold Qcdiv in E. apply Qcmult_integral in E as [E|E].
      * change 0%Qc with (Q2Qc 0) in E. rewrite <- Z2Qc_inj_0 in E.
        apply Z2Qc_inj in E. lia.
      * pose proof (Qcinv_pos _ HN) as Hinv. rewrite E in Hinv.
        by apply Qclt_not_eq in Hinv.
    + intros ->. rewrite Qc_zero_div. ring.
Qed.

Lemma matches_all {M : Type} {C : Classifier M} (osm : M) (df : list row) :
  (∀ r, r ∈ df → predict osm (text r) = (label r, osm)) →
  matches osm df = length df.
Proof.
  induction df as [|r df IH]; intros Hall; [done|].
  rewrite (matches_cons osm osm r df (label r))
    by (apply Hall; apply elem_of_cons; by left).
  rewrite decide_True by done. simpl. f_equal. apply IH.
  intros r' Hr'. apply Hall. apply elem_of_cons. by right.
Qed.

Lemma model_accuracy_all_match {M : Type} {C : Classifier M} (osm : M)
    (df : list row) :
  matches osm df = length df →
  (model_accuracy (F:=ideal) osm df).1 = Ok (Fin (Qc_of_Z 100)).
Proof.
  intros E. rewrite model_accuracy_matches, E.
  destruct df as [|r df]; [done|].
  rewrite decide_False by done. do 2 f_equal.
  assert (Qc_of_nat (length (r :: df)) ≠ 0%Qc) as Hn
    by (apply Qc_of_nat_ne_0; simpl; lia).
  field. done.
Qed.

(** ** The memorizing model, continued *)

Section memorizing.
Variable hash : string → Z.

(** X19: [fit] of the memorizing model adds to the two sets and never
    removes from them, so fitting on one frame and then on another is
    fitting on the two frames in a row; and the fitted model depends only on
    which rows the frame has, not on their order nor on how often a row
    occurs. *)
Theorem overfitting_fit_rows (m0 : OverfittingSpamModel.t)
    (df df' : list row) :
  OverfittingSpamModel.fit hash (OverfittingSpamModel.fit hash m0 df) df'
  = OverfittingSpamModel.fit hash m0 (df ++ df')
  ∧ OverfittingSpamModel.legit m0
    ⊆ OverfittingSpamModel.legit (OverfittingSpamModel.fit hash m0 df)
  ∧ OverfittingSpamModel.spam m0
    ⊆ OverfittingSpamModel.spam (OverfittingSpamModel.fit hash m0 df)
  ∧ ((∀ r, r ∈ df ↔ r ∈ df') →
     OverfittingSpamModel.fit hash m0 df
     = OverfittingSpamModel.fit hash m0 df').
Proof.
  split; [by unfold OverfittingSpamModel.fit; rewrite foldl_app|].
  split; [intros h Hh; apply (overfitting_fit_sets hash m0 df h); by left|].
  split; [intros h Hh; apply (overfitting_fit_sets hash m0 df h); by left|].
  intros Hrows.
  assert (∀ a b : OverfittingSpamModel.t,
            OverfittingSpamModel.legit a = OverfittingSpamModel.legit b →
            OverfittingSpamModel.spam a = OverfittingSpamModel.spam b →
            a = b) as Hrec
    by (intros [??] [??]; simpl; congruence).
  apply Hrec; apply set_eq; intros h.
  - rewrite (proj1 (overfitting_fit_sets hash m0 df h)),
      (proj1 (overfitting_fit_sets hash m0 df' h)).
    by setoid_rewrite Hrows.
  - rewrite (proj2 (overfitting_fit_sets hash m0 df h)),
      (proj2 (overfitting_fit_sets hash m0 df' h)).
    by setoid_rewrite Hrows.
Qed.

(** X20: the memorizing model is always right on the frame it was fitted
    on: when every label of the frame is [legitimate] or [spam] and no
    legitimate text has the hash of a text with another label,
    [model_accuracy] of the fitted model on that frame is 100. *)
Theorem overfitting_training_accuracy (df : list row) :
  (∀ r, r ∈ df → label r = "legitimate" ∨ label r = "spam") →
  (∀ r r', r ∈ df → r' ∈ df → hash (text r) = hash (text r') →
           label r = label r') →
  let osm := OverfittingSpamModel.fit hash OverfittingSpamModel.init df in
  (model_accuracy (F:=ideal) (C:=OverfittingSpamModel.classifier hash)
     osm df).1
  = Ok (Fin (Qc_of_Z 100)).
Proof.
  intros Hlabels Hhash osm.
  apply model_accuracy_all_match, matches_all.
  intros r Hr.
  pose proof (overfitting_fit_sets hash OverfittingSpamModel.init df
                (hash (text r))) as [Hl Hs].
  fold osm in Hl, Hs.
  change (predict osm (text r))
    with (OverfittingSpamModel.predict hash osm (text r)).
  unfold OverfittingSpamModel.predict.
  destruct (Hlabels r Hr) as [E|E].
  - rewrite bool_decide_eq_true_2; [by rewrite E|].
    apply Hl. right. by exists r.
  - rewrite bool_decide_eq_false_2.
    + rewrite bool_decide_eq_true_2; [by rewrite E|].
      apply Hs. right. exists r. by rewrite E.
    + intros Hin. apply Hl in Hin as [Hin|(r' & Hr' & Hlab & Heq)];
        [by apply elem_of_empty in Hin|].
      specialize (Hhash r r' Hr Hr' (eq_sym Heq)). congruence.
Qed.
End memorizing.

Lemma overfitting_fit_rows_witness :
  let hash (s : string) := Z.of_nat (String.length s) in
  let r1 := Row "legitimate" "see you at noon" in
  let r2 := Row "spam" "win a prize" in
  OverfittingSpamModel.fit hash OverfittingSpamModel.init [r1; r2]
  = OverfittingSpamModel.fit hash OverfittingSpamModel.init [r2; r1; r2].
Proof.
  intros hash r1 r2.
  apply (overfitting_fit_rows hash OverfittingSpamModel.init [r1; r2]
           [r2; r1; r2]).
  intros r. rewrite !elem_of_cons, !elem_of_nil. naive_solver.
Defined.

Lemma overfitting_training_accuracy_witness :
  let hash (s : string) := Z.of_nat (String.length s) in
  let df := [Row "legitimate" "see you at noon"; Row "spam" "win a prize";
             Row "spam" "free prize"] in
  (model_accuracy (F:=ideal) (C:=OverfittingSpamModel.classifier hash)
     (OverfittingSpamModel.fit hash OverfittingSpamModel.init df) df).1
  = Ok (Fin (Qc_of_Z 100)).
Proof.
  intros hash df.
  apply (overfitting_training_accuracy hash df).
  - intros r Hr. unfold df in Hr.
    rewrite !elem_of_cons, elem_of_nil in Hr.
    destruct Hr as [->|[->|[->|[]]]]; simpl; auto.
  - intros r r' Hr Hr'. unfold df in Hr, Hr'.
    rewrite !elem_of_cons, elem_of_nil in Hr, Hr'.
    destruct Hr as [->|[->|[->|[]]]], Hr' as [->|[->|[->|[]]]];
      vm_compute; congruence.
Defined.

(** ** The model biased towards spam, continued *)

Section vocabulary.
Import SensitiveSpamModel.

Lemma incr_keys (w : string) (d : dict) (k : string) :
  k ∈ (incr w d).*1 ↔ k = w ∨ k ∈ d.*1.
Proof.
  induction d as [|[k' v] d IH]; simpl.
  - rewrite elem_of_cons, elem_of_nil. naive_solver.
  - case_bool_decide as E; simpl in *; rewrite !elem_of_cons.
    + naive_solver.
    + rewrite IH. naive_solver.
Qed.

Lemma count_words_keys (text : string) (d : dict) (k : string) :
  k ∈ (count_words text d).*1
  ↔ k ∈ d.*1 ∨ ∃ t, t ∈ re_split_W text ∧ t ≠ "" ∧ k = lower t.
Proof.
  unfold count_words. revert d.
  induction (re_split_W text) as [|t ts IH]; intros d; simpl.
  - split; [by left|]. intros [?|(t & Ht & _)]; [done|].
    by apply elem_of_nil in Ht.
  - rewrite IH. setoid_rewrite elem_of_cons.
    destruct t as [|c t]; simpl; [naive_solver|].
    rewrite incr_keys. naive_solver.
Qed.

Lemma count_rows_keys (df : list row) (k : string) :
  (k ∈ (count_rows df).1.*1
   ↔ ∃ r t, r ∈ df ∧ label r = "legitimate"
            ∧ t ∈ re_split_W (text r) ∧ t ≠ "" ∧ k = lower t)
  ∧ (k ∈ (count_rows df).2.*1
     ↔ ∃ r t, r ∈ df ∧ label r ≠ "legitimate"
              ∧ t ∈ re_split_W (text r) ∧ t ≠ "" ∧ k = lower t).
Proof.
  unfold count_rows.
  cut (∀ l s : dict,
         let ds := foldl (λ '(legit_words, spam_words) tup,
                     if bool_decide (label tup = "legitimate")
                     then (count_words (text tup) legit_words, spam_words)
                     else (legit_words, count_words (text tup) spam_words))
                     (l, s) df in
         (k ∈ ds.1.*1
          ↔ k ∈ l.*1
            ∨ ∃ r t, r ∈ df ∧ label r = "legitimate"
                     ∧ t ∈ re_split_W (text r) ∧ t ≠ "" ∧ k = lower t)
         ∧ (k ∈ ds.2.*1
            ↔ k ∈ s.*1
              ∨ ∃ r t, r ∈ df ∧ label r ≠ "legitimate"
                       ∧ t ∈ re_split_W (text r) ∧ t ≠ "" ∧ k = lower t)).
  { intros H. destruct (H [] []) as [H1 H2]. simpl in H1, H2.
    rewrite H1, H2. split; (split; [intros [Hin|?]; [|done]|by right]);
      by apply elem_of_nil in Hin. }
  induction df as [|r df IH]; intros l s; simpl.
  - split; (split; [by left|]); intros [?|(r & t & Hr & _)]; try done;
      by apply elem_of_nil in Hr.
  - case_bool_decide as E.
    + destruct (IH (count_words (text r) l) s) as [H1 H2]. simpl in H1, H2.
      rewrite H1, H2, count_words_keys.
      setoid_rewrite elem_of_cons. naive_solver.
    + destruct (IH l (count_words (text r) s)) as [H1 H2]. simpl in H1, H2.
      rewrite H1, H2, count_words_keys.
      setoid_rewrite elem_of_cons. naive_solver.
Qed.




Lemma fit_disjoint (self : t) (df : list row) :
  legit (fit self df) ## spam (fit self df).
Proof.
  intros w Hl Hs.
  apply (fit_vocabularies self df w) in Hl, Hs. naive_solver.
Qed.

Lemma filter_none {A : Type} (P : A → Prop) `{!∀ x, Decision (P x)}
    (l : list A) :
  (∀ x, x ∈ l → ¬ P x) → filter P l = [].
Proof.
  induction l as [|x l IH]; intros Hno; [done|].
  rewrite filter_cons, decide_False by (apply Hno, elem_of_cons; by left).
  apply IH. intros y Hy. apply Hno, elem_of_cons. by right.
Qed.





(** X23: fitted on a frame without a legitimate row the model has an empty
    legitimate vocabulary and predicts [spam] for every text; a text none of
    whose words is in the legitimate vocabulary is predicted [spam]. *)
Theorem sensitive_predict_needs_legit (self : t) (df : list row) :
  let m := fit self df in
  ((∀ r, r ∈ df → label r ≠ "legitimate") →
   legit m = ∅ ∧ ∀ text, (predict m text).1 = "spam")
  ∧ (∀ text, (∀ t, t ∈ re_split_W text → t ∉ legit m) →
             (predict m text).1 = "spam")
  ∧ (∀ text, (predict m text).1 = "spam"
             ∨ (predict m text).1 = "legitimate").
Proof.
  intros m. subst m.
  assert (∀ text, (∀ t, t ∈ re_split_W text → t ∉ legit (fit self df)) →
                  (predict (fit self df) text).1 = "spam") as Hnone.
  { intros text Hno.
    rewrite predict_raw_tokens by apply fit_disjoint. simpl.
    by rewrite (filter_none (λ w, w ∈ legit (fit self df))). }
  split; [|split; [done|]].
  - intros Hrows.
    assert (legit (fit self df) = ∅) as E.
    { apply set_eq. intros w. split; [|by intros ?%elem_of_empty].
      intros Hw. apply (fit_vocabularies self df w) in Hw as [Hw _].
      apply (count_rows_keys df w) in Hw as (r & t & Hr & Hlab & _).
      by destruct (Hrows r Hr). }
    split; [done|]. intros text. apply Hnone. intros t _.
    rewrite E. apply not_elem_of_empty.
  - intros text. rewrite predict_raw_tokens by apply fit_disjoint. simpl.
    case_match; auto.
Qed.

(** *** The word counts *)

Lemma dict_get_cons (k k' : string) (v : nat) (d : dict) :
  dict_get k ((k', v) :: d)
  = (if decide (k' = k) then v else 0) + dict_get k d.
Proof.
  unfold dict_get, dict. rewrite filter_cons. simpl. by case_decide.
Qed.

Lemma dict_get_incr (k w : string) (d : dict) :
  dict_get k (incr w d) = dict_get k d + (if decide (w = k) then 1 else 0).
Proof.
  induction d as [|[k' v] d IH]; simpl.
  - rewrite dict_get_cons. unfold dict_get. simpl. case_decide; lia.
  - case_bool_decide as E; rewrite !dict_get_cons.
    + subst k'. case_decide; lia.
    + rewrite IH. lia.
Qed.

Lemma dict_get_count_words (k text : string) (d : dict) :
  dict_get k (count_words text d) = dict_get k d + occurrences k text.
Proof.
  unfold count_words, occurrences. revert d.
  induction (re_split_W text) as [|t ts IH]; intros d; simpl; [lia|].
  rewrite IH, filter_cons.
  destruct t as [|c t].
  - rewrite decide_False by naive_solver. done.
  - change (0 <? String.length (String c t)) with true. cbv iota.
    rewrite dict_get_incr.
    destruct (decide (lower (String c t) = k)) as [E|E].
    + rewrite decide_True by done. simpl. lia.
    + rewrite decide_False by naive_solver. lia.
Qed.

Lemma class_count_cons (select : row → bool) (r : row) (df : list row)
    (k : string) :
  class_count select (r :: df) k
  = (if select r then occurrences k (text r) else 0)
    + class_count select df k.
Proof.
  unfold class_count. rewrite filter_cons.
  by destruct (select r).
Qed.

Lemma dict_get_count_rows (df : list row) (k : string) :
  dict_get k (count_rows df).1 = class_count is_legitimate df k
  ∧ dict_get k (count_rows df).2 = class_count (negb ∘ is_legitimate) df k.
Proof.
  unfold count_rows.
  cut (∀ l s : dict,
         let ds := foldl (λ '(legit_words, spam_words) tup,
                     if bool_decide (label tup = "legitimate")
                     then (count_words (text tup) legit_words, spam_words)
                     else (legit_words, count_words (text tup) spam_words))
                     (l, s) df in
         dict_get k ds.1 = dict_get k l + class_count is_legitimate df k
         ∧ dict_get k ds.2
           = dict_get k s + class_count (negb ∘ is_legitimate) df k).
  { intros H. apply (H [] []). }
  induction df as [|r df IH]; intros l s; simpl.
  - unfold class_count. simpl. lia.
  - rewrite !class_count_cons. unfold compose, is_legitimate at 1 3.
    case_bool_decide as E; simpl.
    + destruct (IH (count_words (text r) l) s) as [H1 H2].
      simpl in H1, H2. rewrite H1, H2, dict_get_count_words.
      unfold compose. lia.
    + destruct (IH l (count_words (text r) s)) as [H1 H2].
      simpl in H1, H2. rewrite H1, H2, dict_get_count_words.
      unfold compose. lia.
Qed.

Lemma incr_NoDup (w : string) (d : dict) :
  NoDup d.*1 → NoDup (incr w d).*1.
Proof.
  induction d as [|[k v] d IH]; simpl; intros Hd.
  - apply NoDup_singleton.
  - apply NoDup_cons in Hd as [Hk Hd].
    case_bool_decide as E; simpl; apply NoDup_cons.
    + done.
    + split; [|by apply IH]. rewrite incr_keys. naive_solver.
Qed.

Lemma count_words_NoDup (text : string) (d : dict) :
  NoDup d.*1 → NoDup (count_words text d).*1.
Proof.
  unfold count_words. revert d.
  induction (re_split_W text) as [|t ts IH]; intros d Hd; simpl; [done|].
  apply IH. case_match; [by apply incr_NoDup|done].
Qed.

Lemma count_rows_NoDup (df : list row) :
  NoDup (count_rows df).1.*1 ∧ NoDup (count_rows df).2.*1.
Proof.
  unfold count_rows.
  cut (∀ l s : dict,
         NoDup l.*1 → NoDup s.*1 →
         let ds := foldl (λ '(legit_words, spam_words) tup,
                     if bool_decide (label tup = "legitimate")
                     then (count_words (text tup) legit_words, spam_words)
                     else (legit_words, count_words (text tup) spam_words))
                     (l, s) df in
         NoDup ds.1.*1 ∧ NoDup ds.2.*1).
  { intros H. apply (H [] []); apply NoDup_nil_2. }
  induction df as [|r df IH]; intros l s Hl Hs; simpl; [done|].
  case_bool_decide; apply IH; auto using count_words_NoDup.
Qed.

Lemma filter_keys_NoDup (P : string * nat → Prop) `{!∀ x, Decision (P x)}
    (d : dict) :
  NoDup d.*1 → NoDup (filter P d).*1.
Proof.
  intros Hd. apply (sublist_NoDup _ d.*1); [done|].
  apply fmap_sublist. apply sublist_filter.
Qed.

Lemma dict_get_NoDup (k : string) (v : nat) (d : dict) :
  NoDup d.*1 → (k, v) ∈ d → dict_get k d = v.
Proof.
  induction d as [|[k' v'] d IH]; simpl; intros Hd Hin.
  - by apply elem_of_nil in Hin.
  - apply NoDup_cons in Hd as [Hk Hd]. rewrite dict_get_cons.
    apply elem_of_cons in Hin as [[= <- <-]|Hin].
    + rewrite decide_True by done.
      unfold dict_get, dict. rewrite filter_none; [simpl; lia|].
      intros [k2 v2] Hin2 E. simpl in E. subst k2.
      apply Hk. apply list_elem_of_fmap. by exists (k, v2).
    + rewrite decide_False, IH by (try done; intros ->; apply Hk;
        apply list_elem_of_fmap; by exists (k, v)). done.
Qed.

(** *** The words that are kept *)

Lemma filter_ext_in {A : Type} (P Q : A → Prop) `{!∀ x, Decision (P x)}
    `{!∀ x, Decision (Q x)} (l : list A) :
  (∀ x, x ∈ l → P x ↔ Q x) → filter P l = filter Q l.
Proof.
  induction l as [|x l IH]; intros Hext; [done|].
  rewrite !filter_cons.
  rewrite IH by (intros y Hy; apply Hext, elem_of_cons; by right).
  destruct (decide (P x)) as [HP|HP].
  - rewrite decide_True; [done|]. apply Hext; [apply elem_of_cons; by left|].
    done.
  - rewrite decide_False; [done|]. intros HQ. apply HP.
    apply Hext; [apply elem_of_cons; by left|done].
Qed.

Lemma filter_all {A : Type} (P : A → Prop) `{!∀ x, Decision (P x)}
    (l : list A) :
  (∀ x, P x) → filter P l = l.
Proof.
  intros HP. induction l as [|x l IH]; [done|].
  by rewrite filter_cons, decide_True, IH.
Qed.

Lemma del_loop_filter (words : list string) (l s : dict) :
  foldl (λ '(legit_words, spam_words) word,
           (del word legit_words, del word spam_words))
        (l, s) words
  = (filter (λ kv, kv.1 ∉ words) l, filter (λ kv, kv.1 ∉ words) s).
Proof.
  revert l s. induction words as [|w ws IH]; intros l s; simpl.
  - f_equal; symmetry; apply filter_all; intros kv; apply not_elem_of_nil.
  - rewrite IH. unfold del, dict. rewrite !list_filter_filter.
    f_equal; apply list_filter_iff; intros kv; rewrite not_elem_of_cons;
      naive_solver.
Qed.

(** [fit] in one piece: the vocabularies are the first 100 and the first
    1000 keys of the sorted exclusive items. *)
Lemma fit_exclusive (self : t) (df : list row) :
  let l := (count_rows df).1 in
  let s := (count_rows df).2 in
  fit self df
  = {| legit := list_to_set (take 100 (sorted_desc (exclusive l s))).*1;
       spam := list_to_set (take 1000 (sorted_desc (exclusive s l))).*1 |}.
Proof.
  unfold fit. destruct (count_rows df) as [l s]. simpl.
  rewrite del_loop_filter. unfold exclusive, dict.
  f_equal; do 4 f_equal; apply filter_ext_in; intros [k v] Hin; simpl;
    rewrite elem_of_common_keys.
  - assert (k ∈ l.*1) by (apply list_elem_of_fmap; by exists (k, v)).
    naive_solver.
  - assert (k ∈ s.*1) by (apply list_elem_of_fmap; by exists (k, v)).
    naive_solver.
Qed.

Definition by_count_desc (x y : string * nat) : Prop := y.2 ≤ x.2.

Lemma insert_desc_Permutation (kv : string * nat) (s : list (string * nat)) :
  insert_desc kv s ≡ₚ kv :: s.
Proof.
  induction s as [|kv' s IH]; simpl; [done|].
  case_match; [|done]. rewrite IH. apply Permutation_swap.
Qed.

Lemma sorted_desc_Permutation (d : dict) : sorted_desc d ≡ₚ d.
Proof.
  induction d as [|kv d IH]; simpl; [done|].
  by rewrite insert_desc_Permutation, IH.
Qed.

Lemma insert_desc_sorted (kv : string * nat) (s : list (string * nat)) :
  StronglySorted by_count_desc s →
  StronglySorted by_count_desc (insert_desc kv s).
Proof.
  induction 1 as [|kv' s Hs IH Hall]; simpl.
  - by repeat constructor.
  - destruct (Nat.ltb_spec kv.2 kv'.2) as [Hlt|Hge].
    + constructor; [done|].
      rewrite insert_desc_Permutation. constructor; [|done].
      unfold by_count_desc. lia.
    + constructor; [by constructor|]. constructor; [done|].
      eapply Forall_impl; [exact Hall|]. unfold by_count_desc.
      intros x Hx. simpl in *. lia.
Qed.

Lemma sorted_desc_sorted (d : dict) :
  StronglySorted by_count_desc (sorted_desc d).
Proof.
  induction d as [|kv d IH]; simpl; [constructor|].
  by apply insert_desc_sorted.
Qed.

(** The first [n] keys of the sorted items of a dictionary [d]: there are
    [min n (len d)] of them, and an item that is left out has a count that
    is at most the count of every item that is kept. *)
Lemma top_words_spec (n : nat) (d : dict) :
  NoDup d.*1 →
  let top : gset string := list_to_set (take n (sorted_desc d)).*1 in
  size top = Nat.min n (length d)
  ∧ (length d ≤ n → top = list_to_set d.*1)
  ∧ ∀ w w', w ∈ top → w' ∈ d.*1 → w' ∉ top →
            dict_get w' d ≤ dict_get w d.
Proof.
  intros Hd top. subst top.
  pose proof (sorted_desc_Permutation d) as Hperm.
  assert (NoDup (sorted_desc d).*1) as Hsd by by rewrite Hperm.
  split; [|split].
  - rewrite size_list_to_set.
    + by rewrite length_fmap, length_take, Hperm.
    + rewrite fmap_take. eapply sublist_NoDup; [done|apply sublist_take].
  - intros Hlen. rewrite take_ge by by rewrite Hperm.
    apply set_eq. intros w. rewrite !elem_of_list_to_set. by rewrite Hperm.
  - intros w w' Hw Hw' Hout.
    rewrite elem_of_list_to_set in Hw, Hout.
    apply list_elem_of_fmap in Hw as ([k c] & -> & Hin).
    apply list_elem_of_fmap in Hw' as ([k' c'] & -> & Hin').
    simpl in *.
    assert ((k', c') ∈ drop n (sorted_desc d)) as Hdrop.
    { rewrite <- Hperm, <- (take_drop n (sorted_desc d)) in Hin'.
      apply elem_of_app in Hin' as [Hin'|Hin']; [|done].
      destruct Hout. apply list_elem_of_fmap. by exists (k', c'). }
    pose proof (sorted_desc_sorted d) as Hsorted.
    rewrite <- (take_drop n (sorted_desc d)) in Hsorted.
    pose proof (StronglySorted_app_1_elem_of _ _ _ _ _ Hsorted Hin Hdrop)
      as Hle.
    unfold by_count_desc in Hle. simpl in Hle.
    rewrite (dict_get_NoDup k c), (dict_get_NoDup k' c'); try done.
    rewrite <- Hperm. eapply elem_of_sublist; [exact Hin|apply sublist_take].
Qed.

Lemma dict_get_exclusive (a b : dict) (k : string) :
  k ∉ b.*1 → dict_get k (exclusive a b) = dict_get k a.
Proof.
  intros Hk. unfold dict_get, exclusive, dict. rewrite list_filter_filter.
  f_equal. f_equal. apply list_filter_iff. intros [k' v]. simpl.
  naive_solver.
Qed.

Lemma exclusive_keys (a b : dict) (k : string) :
  k ∈ (exclusive a b).*1 ↔ k ∈ a.*1 ∧ k ∉ b.*1.
Proof.
  unfold exclusive, dict. split.
  - intros ([k' v] & -> & [Hout Hin]%list_elem_of_filter)%list_elem_of_fmap.
    simpl in *. split; [|done]. apply list_elem_of_fmap. by exists (k', v).
  - intros [([k' v] & -> & Hin)%list_elem_of_fmap Hout].
    apply list_elem_of_fmap. exists (k', v). split; [done|].
    by apply list_elem_of_filter.
Qed.

Lemma occurrences_pos (w text : string) :
  0 < occurrences w text
  ↔ ∃ t, t ∈ re_split_W text ∧ t ≠ "" ∧ w = lower t.
Proof.
  unfold occurrences. split.
  - intros Hlen.
    destruct (filter _ (re_split_W text)) as [|t ts] eqn:E;
      [simpl in Hlen; lia|].
    assert (t ∈ t :: ts) as Ht by (apply elem_of_cons; by left).
    rewrite <- E in Ht. apply list_elem_of_filter in Ht.
    exists t. naive_solver.
  - intros (t & Ht & Hne & ->).
    assert (t ∈ filter (λ t', t' ≠ "" ∧ lower t' = lower t)
                   (re_split_W text)) as Hin
      by (apply list_elem_of_filter; naive_solver).
    revert Hin. destruct (filter _ (re_split_W text)); simpl; [|lia].
    by intros ?%elem_of_nil.
Qed.

Lemma class_count_pos (select : row → bool) (df : list row) (w : string) :
  0 < class_count select df w
  ↔ ∃ r t, r ∈ df ∧ select r = true
           ∧ t ∈ re_split_W (text r) ∧ t ≠ "" ∧ w = lower t.
Proof.
  induction df as [|r df IH].
  - unfold class_count. simpl. split; [lia|].
    intros (r & t & Hr & _). by apply elem_of_nil in Hr.
  - rewrite class_count_cons. setoid_rewrite elem_of_cons.
    pose proof (occurrences_pos w (text r)) as Hocc.
    destruct (select r) eqn:Hsel.
    + split.
      * intros Hsum.
        destruct (decide (0 < occurrences w (text r))) as [Ho|Ho].
        -- apply Hocc in Ho as (t & ?). exists r, t. naive_solver.
        -- assert (0 < class_count select df w) as Hc by lia.
           apply IH in Hc as (r' & t & ?). exists r', t. naive_solver.
      * intros (r' & t & [->|Hr'] & Hs & Ht).
        -- assert (0 < occurrences w (text r)) by (apply Hocc; by exists t).
           lia.
        -- assert (0 < class_count select df w)
             by (apply IH; exists r', t; naive_solver).
           lia.
    + simpl. rewrite IH. split.
      * intros (r' & t & ?). exists r', t. naive_solver.
      * intros (r' & t & [->|Hr'] & Hs & Ht); [congruence|].
        exists r', t. naive_solver.
Qed.

(** X24: the dictionaries that [fit] fills count the words: under each word
    the legitimate dictionary holds the number of its occurrences, after
    cutting at the runs of non-word characters, dropping empty words and
    lowercasing, in the texts of the rows labelled [legitimate]; the other
    dictionary does so for all other rows.  A word is a key exactly when
    that number is not zero, and no key occurs twice. *)
Theorem sensitive_fit_counts (df : list row) (w : string) :
  let legit_words := (count_rows df).1 in
  let spam_words := (count_rows df).2 in
  dict_get w legit_words = class_count is_legitimate df w
  ∧ dict_get w spam_words = class_count (negb ∘ is_legitimate) df w
  ∧ (w ∈ legit_words.*1 ↔ 0 < class_count is_legitimate df w)
  ∧ (w ∈ spam_words.*1 ↔ 0 < class_count (negb ∘ is_legitimate) df w)
  ∧ NoDup legit_words.*1 ∧ NoDup spam_words.*1.
Proof.
  intros legit_words spam_words. subst legit_words spam_words.
  destruct (dict_get_count_rows df w) as [Gl Gs].
  destruct (count_rows_NoDup df) as [Nl Ns].
  destruct (count_rows_keys df w) as [Kl Ks].
  repeat split; try done.
  - rewrite Kl. intros (r & t & Hr & Hlab & Ht).
    apply class_count_pos. exists r, t. split; [done|]. split; [|done].
    by apply bool_decide_eq_true_2.
  - intros (r & t & Hr & Hlab%bool_decide_eq_true_1 & Ht)%class_count_pos.
    apply Kl. by exists r, t.
  - rewrite Ks. intros (r & t & Hr & Hlab & Ht).
    apply class_count_pos. exists r, t. split; [done|]. split; [|done].
    unfold compose, is_legitimate. by rewrite bool_decide_eq_false_2.
  - intros (r & t & Hr & Hlab & Ht)%class_count_pos.
    apply Ks. exists r, t. split; [done|]. split; [|done].
    unfold compose, is_legitimate in Hlab.
    intros E. by rewrite bool_decide_eq_true_2 in Hlab.
Qed.

(** X25: which words [fit] keeps.  Of the words that occur in legitimate
    rows only, the legitimate vocabulary holds all when there are at most
    100 and 100 otherwise; a word that is left out occurs in the legitimate
    rows at most as often as every word that is kept.  The spam vocabulary
    holds the words of the other rows in the same way, up to 1000. *)
Theorem sensitive_fit_top_words (self : t) (df : list row) :
  let m := fit self df in
  let legit_only := exclusive (count_rows df).1 (count_rows df).2 in
  let spam_only := exclusive (count_rows df).2 (count_rows df).1 in
  size (legit m) = Nat.min 100 (length legit_only)
  ∧ size (spam m) = Nat.min 1000 (length spam_only)
  ∧ (length legit_only ≤ 100 → legit m = list_to_set legit_only.*1)
  ∧ (length spam_only ≤ 1000 → spam m = list_to_set spam_only.*1)
  ∧ (∀ w w', w ∈ legit m → w' ∈ legit_only.*1 → w' ∉ legit m →
             class_count is_legitimate df w'
             ≤ class_count is_legitimate df w)
  ∧ (∀ w w', w ∈ spam m → w' ∈ spam_only.*1 → w' ∉ spam m →
             class_count (negb ∘ is_legitimate) df w'
             ≤ class_count (negb ∘ is_legitimate) df w).
Proof.
  intros m legit_only spam_only. subst m.
  rewrite fit_exclusive. simpl. fold legit_only spam_only.
  destruct (count_rows_NoDup df) as [Nl Ns].
  destruct (top_words_spec 100 legit_only) as (Sl & Al & Ol);
    [by apply filter_keys_NoDup|].
  destruct (top_words_spec 1000 spam_only) as (Ss & As & Os);
    [by apply filter_keys_NoDup|].
  split; [done|]. split; [done|]. split; [done|]. split; [done|].
  split.
  - intros w w' Hw Hw' Hout.
    specialize (Ol w w' Hw Hw' Hout).
    assert (w ∈ legit_only.*1) as Hwk.
    { rewrite elem_of_list_to_set in Hw.
      eapply elem_of_sublist in Hw;
        [|apply fmap_sublist, sublist_take].
      by rewrite sorted_desc_Permutation in Hw. }
    apply exclusive_keys in Hwk as [_ Hwk], Hw' as [_ Hw'].
    unfold legit_only in Ol. rewrite !dict_get_exclusive in Ol by done.
    by rewrite !(proj1 (dict_get_count_rows df _)) in Ol.
  - intros w w' Hw Hw' Hout.
    specialize (Os w w' Hw Hw' Hout).
    assert (w ∈ spam_only.*1) as Hwk.
    { rewrite elem_of_list_to_set in Hw.
      eapply elem_of_sublist in Hw;
        [|apply fmap_sublist, sublist_take].
      by rewrite sorted_desc_Permutation in Hw. }
    apply exclusive_keys in Hwk as [_ Hwk], Hw' as [_ Hw'].
    unfold spam_only in Os. rewrite !dict_get_exclusive in Os by done.
    by rewrite !(proj2 (dict_get_count_rows df _)) in Os.
Qed.

End vocabulary.
